(** * Hover-to-preview audio fade: the [play] / [stop] handlers of a track row

    Shallow embedding of the TypeScript in the "Preview on hover" and
    "Dealing with browser constraints" sections of the Spotify playlist
    article (src/content/next-hsts-preload.mdx, lines 391-565): the two
    event handlers of a track row, the interval and timeout callbacks they
    register, and the settlement callbacks of [newAudio.play()].

    JavaScript numbers are IEEE-754 doubles and are modelled by Rocq's
    primitive binary64 floats; React state is modelled by explicit state
    passing, closures by the values they captured at the render in which
    the handler ran. *)

From Stdlib Require Import Floats ZArith String Ascii List Lia.
From stdpp Require Import gmap list strings sorting.

Set Warnings "-inexact-float".
Local Open Scope Z_scope.

(** ** JavaScript numbers *)

Module JS.

Definition number := float.

(** Magnitude of a double scaled by 100 and rounded to the nearest
    integer, a tie going to the larger one: the integer [n] of
    [Number.prototype.toFixed] ("let n be an integer for which
    n / 10^f - x is as close to zero as possible; if there are two such
    n, pick the larger n"), for f = 2. [m * 2^e] is the exact value. *)
Definition hundredths (m : positive) (e : Z) : Z :=
  if 0 <=? e
  then Z.pos m * 100 * 2 ^ e
  else (Z.pos m * 200 + 2 ^ (- e)) / 2 ^ (1 - e).

Definition float_of_Z (n : Z) : float :=
  if n <? 0
  then PrimFloat.opp (PrimFloat.of_uint63 (Uint63.of_Z (- n)))
  else PrimFloat.of_uint63 (Uint63.of_Z n).

(** [Number(x.toFixed(2))]. [toFixed] prints the sign and the digits of
    [n] with a point before the last two; [Number] reads the string back
    as the double nearest to n/100, which is what the correctly rounded
    division of the two exactly representable doubles [n] and [100]
    yields as long as n < 2^53. Either zero prints as "0.00". NaN and the
    infinities print as themselves, and so do doubles of magnitude 10^21
    and above; beyond 2^53 hundredths, far outside the range of a volume,
    the value is kept as it is. *)
Definition Number_toFixed2 (x : number) : number :=
  match Prim2SF x with
  | S754_finite s m e =>
      let n := hundredths m e in
      if n <? 2 ^ 53
      then let q := PrimFloat.div (float_of_Z n) 100%float in
           if s then PrimFloat.opp q else q
      else x
  | S754_zero _ => 0%float
  | _ => x
  end.

(** Integer part of a double, towards zero. *)
Definition truncate (x : number) : Z :=
  match Prim2SF x with
  | S754_finite s m e =>
      let i := if 0 <=? e then Z.pos m * 2 ^ e else Z.pos m / 2 ^ (- e) in
      if s then - i else i
  | _ => 0
  end.

(** The [timeout] argument of [setTimeout] is a Web IDL [long]: the
    double is truncated and wrapped to 32 bits; the timer initialisation
    steps then replace a negative timeout by 0. *)
Definition timeout_ms (timeout : number) : Z :=
  let i := truncate timeout mod 2 ^ 32 in
  let i := if 2 ^ 31 <=? i then i - 2 ^ 32 else i in
  Z.max 0 i.

(** [hay.includes(needle)] *)
Fixpoint includes (hay needle : string) : bool :=
  String.prefix needle hay
  || match hay with
     | EmptyString => false
     | String _ rest => includes rest needle
     end.

(** Truthiness of a [string | null] value: null and the empty string are
    falsy. *)
Definition truthy (s : option string) : bool :=
  match s with
  | Some (String _ _) => true
  | _ => false
  end.

End JS.

Local Close Scope Z_scope.

(** ** The page: track rows, browser objects, notifications *)

(** The part of a Spotify track object the handlers read. *)
Record SpotifyTrack := {
  track_id : string;                 (* track.id *)
  preview_url : option string        (* track.preview_url: string | null *)
}.

(** An audio element, as far as the handlers touch it. *)
Record HTMLAudioElement := {
  src : string;
  volume : JS.number;
  paused : bool
}.

(** [new Audio(url)]: volume 1, paused. *)
Definition Audio (url : string) : HTMLAudioElement :=
  {| src := url; volume := 1%float; paused := true |}.

(** The [volume] setter throws (IndexSizeError, or TypeError for NaN)
    outside the range 0 to 1 and then leaves the attribute as it was; the
    assignment is the last statement of the callbacks that perform it, so
    the exception has no other effect on the page. *)
Definition set_volume (v : JS.number) (el : HTMLAudioElement) : HTMLAudioElement :=
  if (PrimFloat.leb 0 v && PrimFloat.leb v 1)%bool
  then {| src := src el; volume := v; paused := paused el |}
  else el.

Definition set_paused (b : bool) (el : HTMLAudioElement) : HTMLAudioElement :=
  {| src := src el; volume := volume el; paused := b |}.

(** One rendered track row: its [track] prop and its [useState] slots.
    Audio elements, timers and promises are referred to by handle.

    Modelled from the spec: the declarations of [fadeOut] / [setFadeOut]
    are not in the source; [stop] uses them the way [play] uses
    [fadeIn] / [setFadeIn], so [fadeOut] is a state slot of the same kind
    ("a fade-direction timer handle"), initially null. *)
Record TrackRow := {
  track : SpotifyTrack;
  audio : option nat;                (* useState<HTMLAudioElement | null>(null) *)
  fadeIn : option nat;               (* useState<... setInterval ... | null>(null) *)
  fadeOut : option nat;
  interactable : bool                (* useState<boolean>(false) *)
}.

Definition mount (t : SpotifyTrack) : TrackRow :=
  {| track := t; audio := None; fadeIn := None; fadeOut := None;
     interactable := false |}.

(** [createGlobalState({ interactableNotified: false, activeTrack: '' })].

    Modelled from the spec: [activeTrack] / [setActiveTrack] are used by
    the handlers without a declaration; they are taken to be
    [useGlobalState('activeTrack')] of this store ("global active-track
    marker: single shared value"). *)
Record GlobalState := {
  interactableNotified : bool;
  activeTrack : string
}.

(** The three closures handed to [setInterval] / [setTimeout], with the
    variables they close over. [fadeIn] and [fadeOut] are the constants of
    the render in which the handler ran, not the state slot. *)
Inductive TimerHandler :=
| fadeInTick (newAudio : nat) (fadeIn : option nat)
| fadeOutTick (audio : nat) (fadeOut : option nat)
| pauseAudio (audio : nat).

Record Timer := {
  callback : TimerHandler;
  timeout : JS.number;               (* the delay argument as passed *)
  repeating : bool;                  (* setInterval / setTimeout *)
  due : Z                            (* earliest time of the next run, ms *)
}.

(** A pending [newAudio.play()] with the variables its [then] / [catch]
    callbacks close over: the row (for [setInteractable]) and the value
    [interactableNotified] had in the render in which [play] ran. *)
Record PlayPromise := {
  owner : nat;
  element : nat;
  notified : bool;
  settled : bool
}.

(** What a promise is rejected with: an [Error] object or another value,
    which the handler takes to be a string. *)
Inductive Rejection :=
| ErrorObject (message : string)
| StringValue (s : string).

(** Calls of react-hot-toast, in order. *)
Inductive Toast :=
| toast (message : string)
| toast_success (message : string)
| toast_error (message : string).

Record World := {
  clock : Z;                                  (* ms *)
  rows : list TrackRow;
  globalState : GlobalState;
  audios : list HTMLAudioElement;             (* every element created *)
  timers : gmap nat Timer;                    (* the active timers *)
  nextTimer : nat;
  promises : list PlayPromise;
  toasts : list Toast
}.

Definition init (tracks : list SpotifyTrack) : World :=
  {| clock := 0; rows := map mount tracks;
     globalState := {| interactableNotified := false; activeTrack := "" |};
     audios := []; timers := ∅; nextTimer := 1;
     promises := []; toasts := [] |}.

(** ** Host operations *)

Definition with_row (r : nat) (row : TrackRow) (w : World) : World :=
  {| clock := clock w; rows := <[r := row]> (rows w);
     globalState := globalState w; audios := audios w; timers := timers w;
     nextTimer := nextTimer w; promises := promises w; toasts := toasts w |}.

Definition with_globalState (g : GlobalState) (w : World) : World :=
  {| clock := clock w; rows := rows w; globalState := g;
     audios := audios w; timers := timers w; nextTimer := nextTimer w;
     promises := promises w; toasts := toasts w |}.

Definition with_audios (l : list HTMLAudioElement) (w : World) : World :=
  {| clock := clock w; rows := rows w; globalState := globalState w;
     audios := l; timers := timers w; nextTimer := nextTimer w;
     promises := promises w; toasts := toasts w |}.

Definition with_timers (m : gmap nat Timer) (w : World) : World :=
  {| clock := clock w; rows := rows w; globalState := globalState w;
     audios := audios w; timers := m; nextTimer := nextTimer w;
     promises := promises w; toasts := toasts w |}.

Definition with_promises (l : list PlayPromise) (w : World) : World :=
  {| clock := clock w; rows := rows w; globalState := globalState w;
     audios := audios w; timers := timers w; nextTimer := nextTimer w;
     promises := l; toasts := toasts w |}.

Definition with_clock (t : Z) (w : World) : World :=
  {| clock := t; rows := rows w; globalState := globalState w;
     audios := audios w; timers := timers w; nextTimer := nextTimer w;
     promises := promises w; toasts := toasts w |}.

(** [toast(...)], [toast.success(...)], [toast.error(...)] *)
Definition show (t : Toast) (w : World) : World :=
  {| clock := clock w; rows := rows w; globalState := globalState w;
     audios := audios w; timers := timers w; nextTimer := nextTimer w;
     promises := promises w; toasts := toasts w ++ [t] |}.

(** [setInterval] and [setTimeout] draw their handles from one counter,
    starting at 1, so that a handle is always truthy; the first run is due
    after the timeout. *)
Definition setTimer (h : TimerHandler) (ms : JS.number) (rep : bool) (w : World)
  : nat * World :=
  let handle := nextTimer w in
  (handle,
   {| clock := clock w; rows := rows w; globalState := globalState w;
      audios := audios w;
      timers := <[handle := {| callback := h; timeout := ms; repeating := rep;
                               due := (clock w + JS.timeout_ms ms)%Z |}]> (timers w);
      nextTimer := S handle; promises := promises w; toasts := toasts w |}).

Definition setInterval h ms w := setTimer h ms true w.
Definition setTimeout h ms w := setTimer h ms false w.

(** [clearInterval(handle)]: an unknown handle is ignored. *)
Definition clearInterval (handle : nat) (w : World) : World :=
  with_timers (delete handle (timers w)) w.

(** [if (handle) clearInterval(handle)] *)
Definition clearIfSet (handle : option nat) (w : World) : World :=
  match handle with
  | Some h => clearInterval h w
  | None => w
  end.

(** The timers left by [if (handle) clearInterval(handle)]. *)
Definition cleared (handle : option nat) (m : gmap nat Timer) : gmap nat Timer :=
  match handle with
  | Some h => delete h m
  | None => m
  end.

Definition setActiveTrack (s : string) (w : World) : World :=
  with_globalState {| interactableNotified := interactableNotified (globalState w);
                      activeTrack := s |} w.

Definition setInteractableNotified (b : bool) (w : World) : World :=
  with_globalState {| interactableNotified := b;
                      activeTrack := activeTrack (globalState w) |} w.

Definition setInteractable (r : nat) (b : bool) (w : World) : World :=
  match rows w !! r with
  | Some row =>
      with_row r {| track := track row; audio := audio row; fadeIn := fadeIn row;
                    fadeOut := fadeOut row; interactable := b |} w
  | None => w
  end.

(** ** The handlers *)

Definition advisory : string :=
  "Please click anywhere on the page to preview tracks on hover.".
Definition acknowledgement : string := "Nice! You’re good to go.".
Definition no_interaction : string :=
  "user didn't interact with the document first".
Definition interrupted : string := "interrupted by a call to pause()".

(** [play], with the [newAudio.play()] chain of the second listing in
    place of the first one's. The state setters take effect at the next
    render, which precedes the next event. *)
Definition play (r : nat) (row : TrackRow) (w : World) : World :=
  match audio row, preview_url (track row) with
  | None, Some (String c url) =>
      let newAudio := length (audios w) in
      let el := set_volume 0%float (Audio (String c url)) in
      let w := setActiveTrack (track_id (track row)) w in
      (* newAudio.play().then(...).catch(...) *)
      let w := with_audios (audios w ++ [set_paused false el]) w in
      let w := with_promises
                 (promises w ++
                  [{| owner := r; element := newAudio;
                      notified := interactableNotified (globalState w);
                      settled := false |}]) w in
      let '(timer, w) := setInterval (fadeInTick newAudio (fadeIn row)) 100%float w in
      (* setFadeIn(timer); setAudio(newAudio) *)
      with_row r {| track := track row; audio := Some newAudio;
                    fadeIn := Some timer; fadeOut := fadeOut row;
                    interactable := interactable row |} w
  | _, _ => w                       (* if (audio || !track.preview_url) return *)
  end.

Definition stop (r : nat) (row : TrackRow) (w : World) : option World :=
  match audio row with
  | None => Some w                  (* if (!audio) return *)
  | Some a =>
      el ← audios w !! a;
      let originalVolume := volume el in
      (* setAudio(null); setActiveTrack('') *)
      let w := setActiveTrack "" w in
      let w := clearIfSet (fadeIn row) w in
      let '(out, w) := setInterval (fadeOutTick a (fadeOut row)) 100%float w in
      let '(_, w) := setTimeout (pauseAudio a) ((originalVolume / 0.05) * 100)%float w in
      Some (with_row r {| track := track row; audio := None;
                          fadeIn := fadeIn row; fadeOut := Some out;
                          interactable := interactable row |} w)
  end.

(** [newAudio.volume = Number((newAudio.volume + 0.05).toFixed(2))] *)
Definition louder (el : HTMLAudioElement) : HTMLAudioElement :=
  set_volume (JS.Number_toFixed2 (volume el + 0.05)%float) el.

(** [audio.volume = Number((audio.volume - 0.05).toFixed(2))] *)
Definition quieter (el : HTMLAudioElement) : HTMLAudioElement :=
  set_volume (JS.Number_toFixed2 (volume el - 0.05)%float) el.

(** Body of a timer callback. A handle that names no element does not
    occur in a world reached from [init]; the callback is then stuck. *)
Definition run_handler (h : TimerHandler) (w : World) : option World :=
  match h with
  | fadeInTick newAudio fadeIn =>
      el ← audios w !! newAudio;
      if (volume el <? 1)%float
      then Some (with_audios (<[newAudio := louder el]> (audios w)) w)
      else Some (clearIfSet fadeIn w)
  | fadeOutTick audio fadeOut =>
      el ← audios w !! audio;
      if (0 <? volume el)%float
      then Some (with_audios (<[audio := quieter el]> (audios w)) w)
      else Some (clearIfSet fadeOut w)
  | pauseAudio audio =>
      el ← audios w !! audio;
      Some (with_audios (<[audio := set_paused true el]> (audios w)) w)
  end.

(** A timer runs no earlier than it is due and may run late. An interval
    that is still registered after its callback is due again one period
    after this run; a timeout is removed once it has run. *)
Definition fire (handle : nat) (w : World) : option World :=
  t ← timers w !! handle;
  if (due t <=? clock w)%Z
  then if repeating t
       then w' ← run_handler (callback t) w;
            match timers w' !! handle with
            | Some t' =>
                Some (with_timers
                        (<[handle := {| callback := callback t'; timeout := timeout t';
                                        repeating := repeating t';
                                        due := (clock w' + JS.timeout_ms (timeout t'))%Z |}]>
                           (timers w')) w')
            | None => Some w'
            end
       else run_handler (callback t) (clearInterval handle w)
  else None.

Definition message_of (error : Rejection) : string :=
  match error with
  | ErrorObject message => message  (* error instanceof Error ? error.message *)
  | StringValue s => s              (* : (error as string) *)
  end.

(** The [then] callback of [newAudio.play()]. *)
Definition onFulfilled (p : PlayPromise) (w : World) : World :=
  let w := setInteractable (owner p) true w in
  if notified p
  then show (toast_success acknowledgement) (setInteractableNotified false w)
  else w.

(** The [catch] callback of [newAudio.play()]. *)
Definition onRejected (p : PlayPromise) (error : Rejection) (w : World) : World :=
  let message := message_of error in
  if JS.includes message no_interaction
  then if negb (notified p)
       then setInteractableNotified true (show (toast advisory) w)
       else w
  else if negb (JS.includes message interrupted)
       then show (toast_error message) w
       else w.

Definition settle (p : nat) (pr : PlayPromise) (w : World) : World :=
  with_promises (<[p := {| owner := owner pr; element := element pr;
                           notified := notified pr; settled := true |}]>
                   (promises w)) w.

(** ** Events *)

Inductive Event :=
| onPlay (r : nat)                          (* onMouseOver, onFocus of row r *)
| onStop (r : nat)                          (* onMouseLeave, onBlur of row r *)
| Elapse (ms : Z)                           (* time passes *)
| TimerFires (handle : nat)
| PlayResolves (p : nat)
| PlayRejects (p : nat) (error : Rejection).

(** One event; [None] when the host cannot deliver it (no such row, timer
    not registered or not yet due, promise unknown or already settled). *)
Definition step (e : Event) (w : World) : option World :=
  match e with
  | onPlay r => row ← rows w !! r; Some (play r row w)
  | onStop r => row ← rows w !! r; stop r row w
  | Elapse ms => if (0 <=? ms)%Z then Some (with_clock (clock w + ms)%Z w) else None
  | TimerFires handle => fire handle w
  | PlayResolves p =>
      pr ← promises w !! p;
      if settled pr then None else Some (onFulfilled pr (settle p pr w))
  | PlayRejects p error =>
      pr ← promises w !! p;
      if settled pr then None else Some (onRejected pr error (settle p pr w))
  end.

Fixpoint run (es : list Event) (w : World) : option World :=
  match es with
  | [] => Some w
  | e :: es => w' ← step e w; run es w'
  end.

(** ** Vocabulary of the properties *)

(** The double nearest to k * 0.05: what [toFixed(2)] makes of the k-th
    step of a ramp. *)
Definition level (k : nat) : JS.number :=
  (PrimFloat.of_uint63 (Uint63.of_Z (5 * Z.of_nat k)) / 100)%float.

(** A session of row [r]: its [audio] slot holds an element. *)
Definition has_session (w : World) (r : nat) : Prop :=
  ∃ row a, rows w !! r = Some row ∧ audio row = Some a.

(** A registered fade-in interval. *)
Definition fading_in (w : World) (handle a : nat) : Prop :=
  ∃ t fi, timers w !! handle = Some t ∧ callback t = fadeInTick a fi.

(** Reading of "at most one playback session at any instant": one row at
    most holds a session and one fade-in interval at most is registered. *)
Definition single_session (w : World) : Prop :=
  (∀ r1 r2, has_session w r1 → has_session w r2 → r1 = r2) ∧
  (∀ h1 h2 a1 a2, fading_in w h1 a1 → fading_in w h2 a2 → h1 = h2).

(** The promise belongs to a session that is no longer the current one of
    its row: the row was stopped, or stopped and started again. *)
Definition superseded (w : World) (pr : PlayPromise) : Prop :=
  ∀ row, rows w !! owner pr = Some row → audio row ≠ Some (element pr).

(** Reading of "a late play-success callback is a no-op". *)
Definition late_success_is_noop (w : World) : Prop :=
  ∀ p pr w', promises w !! p = Some pr → superseded w pr →
    step (PlayResolves p) w = Some w' →
    toasts w' = toasts w ∧ globalState w' = globalState w ∧ rows w' = rows w.


(** Effect of a timer callback on the audio elements: what [run_handler]
    does to [audios]. *)
Definition handled (h : TimerHandler) (l : list HTMLAudioElement)
  : option (list HTMLAudioElement) :=
  match h with
  | fadeInTick a _ =>
      el ← l !! a;
      Some (if (volume el <? 1)%float then <[a := louder el]> l else l)
  | fadeOutTick a _ =>
      el ← l !! a;
      Some (if (0 <? volume el)%float then <[a := quieter el]> l else l)
  | pauseAudio a => el ← l !! a; Some (<[a := set_paused true el]> l)
  end.

(** Every element is at one of the 21 levels 0, 0.05, ..., 1. *)
Definition on_ladder (w : World) : Prop :=
  ∀ a el, audios w !! a = Some el → ∃ k, k ≤ 20 ∧ volume el = level k.

(** Every registered fade-in interval is the one recorded in the [fadeIn]
    slot of a row whose [audio] slot holds the element it ramps. *)
Definition fade_ins_owned (w : World) : Prop :=
  ∀ handle a, fading_in w handle a →
    ∃ r row, rows w !! r = Some row ∧ fadeIn row = Some handle ∧ audio row = Some a.

(** The marker is empty or the id of a track of the page. *)
Definition marker_valid (tracks : list SpotifyTrack) (w : World) : Prop :=
  activeTrack (globalState w) = ""%string ∨
  ∃ t, t ∈ tracks ∧ track_id t = activeTrack (globalState w).

Definition page_invariant (tracks : list SpotifyTrack) (w : World) : Prop :=
  track <$> rows w = tracks ∧ marker_valid tracks w ∧ fade_ins_owned w.

(** The handle a timer callback closed over, if any. *)
Definition captured (h : TimerHandler) : option nat :=
  match h with
  | fadeInTick _ fadeIn => fadeIn
  | fadeOutTick _ fadeOut => fadeOut
  | pauseAudio _ => None
  end.

(** Handles are handed out in increasing order: a callback closed over a
    handle older than its own, and the slots of the rows hold handles
    that have been handed out. *)
Definition handles_ordered (w : World) : Prop :=
  (∀ h t, timers w !! h = Some t →
          h < nextTimer w ∧ ∀ x, captured (callback t) = Some x → x < h) ∧
  (∀ r row x, rows w !! r = Some row →
              fadeIn row = Some x ∨ fadeOut row = Some x → x < nextTimer w).

(** The handle of a registered one-shot timer is known to nobody: it is in
    no slot of a row and no registered callback closed over it. *)
Definition timeouts_private (w : World) : Prop :=
  ∀ h t, timers w !! h = Some t → repeating t = false →
    (∀ r row, rows w !! r = Some row → fadeIn row ≠ Some h ∧ fadeOut row ≠ Some h) ∧
    (∀ h' t', timers w !! h' = Some t' → captured (callback t') ≠ Some h).

Definition handles_invariant (w : World) : Prop :=
  handles_ordered w ∧ timeouts_private w.

(** ** Sample page and schedules *)

Definition a_mp3 : SpotifyTrack :=
  {| track_id := "a"; preview_url := Some "http://x/a.mp3"%string |}.
Definition b_mp3 : SpotifyTrack :=
  {| track_id := "b"; preview_url := Some "http://x/b.mp3"%string |}.

(** One punctual run of interval [handle]. *)
Definition tick (handle : nat) : list Event := [Elapse 100; TimerFires handle].

Definition ticks (n handle : nat) : list Event := concat (replicate n (tick handle)).

Definition NotAllowedError : Rejection :=
  ErrorObject "play() failed because the user didn't interact with the document first.".
Definition AbortError : Rejection :=
  ErrorObject "The play() request was interrupted by a call to pause().".

Definition unwrap (o : option World) : World := default (init []) o.

(** ** The playlist header: artists and description *)

(** An entry of the record [getArtists] builds. *)
Record ArtistCount := {
  name : string;
  count : nat
}.

(** [artists.find(({ name }) => name === n)] followed by
    [existing.count += 1]: the first entry of that name is incremented in
    place; [None] when [find] returns undefined. *)
Fixpoint increment (n : string) (artists : list ArtistCount)
  : option (list ArtistCount) :=
  match artists with
  | [] => None
  | a :: rest =>
      if String.eqb (name a) n
      then Some ({| name := name a; count := S (count a) |} :: rest)
      else cons a <$> increment n rest
  end.

(** Body of the inner [forEach]: one artist of one track. *)
Definition countArtist (artists : list ArtistCount) (n : string)
  : list ArtistCount :=
  match increment n artists with
  | Some artists' => artists'                        (* if (existing) *)
  | None =>
      if JS.truthy (Some n)                          (* else if (artist.name) *)
      then artists ++ [{| name := n; count := 1 |}]
      else artists
  end.

(** [getArtists]; a track is given as the names of [track.track.artists]. *)
Definition getArtists (tracks : list (list string)) : list ArtistCount :=
  fold_left (λ artists track, fold_left countArtist track artists) tracks [].

(** [new Set(artists.map((artist) => artist.name)).size] *)
Definition uniqueArtists (artists : list ArtistCount) : nat :=
  size (list_to_set (name <$> artists) : gset string).

(** The comparator of [getTopArtists]. *)
Definition byCount (artist1 artist2 : ArtistCount) : Z :=
  if count artist1 <? count artist2 then 1%Z else (-1)%Z.

(** [getTopArtists]. [Array.prototype.sort] is the host's; it is a
    parameter. *)
Definition getTopArtists
    (sort : (ArtistCount → ArtistCount → Z) → list ArtistCount → list ArtistCount)
    (artists : list ArtistCount) : list string :=
  name <$> take 5 (sort byCount artists).

(** [s.endsWith(suffix)] *)
Fixpoint endsWith (s suffix : string) : bool :=
  String.eqb s suffix
  || match s with
     | EmptyString => false
     | String _ rest => endsWith rest suffix
     end.

(** The [description] constant of [Playlist]. *)
Definition description (d : string) : string :=
  if endsWith d "." then d else String.append d ".".

(** ** The active navigation link *)

(** [href === '/' ? pathname === href : pathname.startsWith(href)] *)
Definition active (href pathname : string) : bool :=
  if String.eqb href "/" then String.eqb pathname href
  else String.prefix href pathname.


(** Occurrences credited to [n]. *)
Definition tally (n : string) (artists : list ArtistCount) : nat :=
  sum_list (count <$> filter (λ a, name a = n) artists).

(** [Array.prototype.sort] as a merge sort that takes [a] before [b] when
    the comparator is not positive on them. *)
Definition mergeSort (cmp : ArtistCount → ArtistCount → Z) (l : list ArtistCount)
  : list ArtistCount :=
  @merge_sort _ (λ a b, (cmp a b <= 0)%Z) (λ a b, decide (cmp a b <= 0)%Z) l.

(** ** What a row renders *)

(** The opacity class of the row:
    [activeTrack && activeTrack !== track.id ? 'opacity-50' : 'opacity-100'] *)
Definition opacity (g : GlobalState) (row : TrackRow) : string :=
  if JS.truthy (Some (activeTrack g))
     && negb (String.eqb (activeTrack g) (track_id (track row)))
  then "opacity-50" else "opacity-100".

(** The progress bar: rendered when [Boolean(track.preview_url)], with the
    class of the 30 s transition while [audio] is set and ['w-0']
    otherwise. *)
Definition progressBar (row : TrackRow) : option string :=
  if JS.truthy (preview_url (track row))
  then Some (match audio row with
             | Some _ => "w-full transition-all duration-[30s] ease-linear"
             | None => "w-0"
             end)
  else None.

(** The element a timer callback acts on. *)
Definition target (h : TimerHandler) : nat :=
  match h with
  | fadeInTick newAudio _ => newAudio
  | fadeOutTick audio _ => audio
  | pauseAudio audio => audio
  end.

(** The session of a row is an element that exists and plays the preview
    of the row's track; the element of a registered callback exists. *)
Definition handles_sound (w : World) : Prop :=
  (∀ r row a, rows w !! r = Some row → audio row = Some a →
     ∃ el, audios w !! a = Some el ∧ preview_url (track row) = Some (src el) ∧
           JS.truthy (Some (src el)) = true) ∧
  (∀ h t, timers w !! h = Some t → target (callback t) < length (audios w)).

(** * Properties *)

(** ** Sanity checks of the number model *)

Example toFixed2_sample : JS.Number_toFixed2 (0.1 + 0.05)%float = 0.15%float.
Proof. vm_compute. reflexivity. Qed.

Example timeout_ms_sample : JS.timeout_ms ((0.15 / 0.05) * 100)%float = 299%Z.
Proof. vm_compute. reflexivity. Qed.

Example includes_sample :
  JS.includes "The play() request was interrupted by a call to pause()."
              "interrupted by a call to pause()" = true.
Proof. reflexivity. Qed.


Lemma timeout_ms_100 : JS.timeout_ms 100%float = 100%Z.
Proof. vm_compute. reflexivity. Qed.

(** ** What the handlers leave behind *)

Ltac world_simpl :=
  cbn [clock rows globalState audios timers nextTimer promises toasts
       with_row with_globalState with_audios with_timers with_promises
       with_clock show clearInterval setActiveTrack setInteractableNotified
       mbind option_bind callback timeout repeating due fst snd] in *.

Lemma with_timers_id (w : World) : with_timers (timers w) w = w.
Proof. destruct w; reflexivity. Qed.

Lemma clearIfSet_cleared (h : option nat) (w : World) :
  clearIfSet h w = with_timers (cleared h (timers w)) w.
Proof. destruct h; [reflexivity | symmetry; apply with_timers_id]. Qed.

Lemma stop_session (w : World) (r : nat) (row : TrackRow) (a : nat)
    (el : HTMLAudioElement) :
  audio row = Some a → audios w !! a = Some el →
  stop r row w = Some
    {| clock := clock w;
       rows := <[r := {| track := track row; audio := None; fadeIn := fadeIn row;
                         fadeOut := Some (nextTimer w);
                         interactable := interactable row |}]> (rows w);
       globalState := {| interactableNotified := interactableNotified (globalState w);
                         activeTrack := "" |};
       audios := audios w;
       timers :=
         <[S (nextTimer w) :=
             {| callback := pauseAudio a;
                timeout := ((volume el / 0.05) * 100)%float;
                repeating := false;
                due := (clock w + JS.timeout_ms ((volume el / 0.05) * 100)%float)%Z |}]>
           (<[nextTimer w :=
                {| callback := fadeOutTick a (fadeOut row); timeout := 100%float;
                   repeating := true; due := (clock w + 100)%Z |}]>
              (cleared (fadeIn row) (timers w)));
       nextTimer := S (S (nextTimer w));
       promises := promises w; toasts := toasts w |}.
Proof.
  intros Ha Hel. unfold stop. rewrite Ha, Hel. cbn [mbind option_bind].
  rewrite clearIfSet_cleared. unfold setTimeout, setInterval, setTimer.
  rewrite timeout_ms_100. reflexivity.
Qed.

Lemma play_session (w : World) (r : nat) (row : TrackRow) (c : ascii) (url : string) :
  audio row = None → preview_url (track row) = Some (String c url) →
  play r row w =
    {| clock := clock w;
       rows := <[r := {| track := track row; audio := Some (length (audios w));
                         fadeIn := Some (nextTimer w); fadeOut := fadeOut row;
                         interactable := interactable row |}]> (rows w);
       globalState := {| interactableNotified := interactableNotified (globalState w);
                         activeTrack := track_id (track row) |};
       audios := audios w ++ [{| src := String c url; volume := 0%float;
                                 paused := false |}];
       timers :=
         <[nextTimer w :=
             {| callback := fadeInTick (length (audios w)) (fadeIn row);
                timeout := 100%float; repeating := true; due := (clock w + 100)%Z |}]>
           (timers w);
       nextTimer := S (nextTimer w);
       promises := promises w ++
                   [{| owner := r; element := length (audios w);
                       notified := interactableNotified (globalState w);
                       settled := false |}];
       toasts := toasts w |}.
Proof.
  intros Ha Hurl. unfold play. rewrite Ha, Hurl.
  unfold setInterval, setTimer. rewrite timeout_ms_100. reflexivity.
Qed.

Lemma play_cases (w : World) (r : nat) (row : TrackRow) :
  play r row w = w ∨
  (audio row = None ∧ ∃ c url, preview_url (track row) = Some (String c url)).
Proof.
  unfold play. destruct (audio row); [by left|].
  destruct (preview_url (track row)) as [[|c url]|]; [by left | | by left].
  right. eauto.
Qed.

Lemma stop_cases (w w' : World) (r : nat) (row : TrackRow) :
  stop r row w = Some w' →
  (audio row = None ∧ w' = w) ∨
  (∃ a el, audio row = Some a ∧ audios w !! a = Some el).
Proof.
  unfold stop. destruct (audio row) as [a|]; [|intros [= <-]; by left].
  destruct (audios w !! a) as [el|] eqn:Hel; cbn [mbind option_bind]; [|discriminate].
  intros _. right. by exists a, el.
Qed.

Lemma stop_clears_session (w w' : World) (r : nat) (row : TrackRow) :
  rows w !! r = Some row → stop r row w = Some w' →
  ∃ row', rows w' !! r = Some row' ∧ audio row' = None.
Proof.
  intros Hrow Hstop. unfold stop in Hstop.
  destruct (audio row) as [a|] eqn:Ha.
  - destruct (audios w !! a) as [el|]; [|discriminate].
    cbn in Hstop. injection Hstop as <-. cbn.
    eexists. split.
    + apply list_lookup_insert_eq.
      destruct (fadeIn row); cbn; eapply lookup_lt_Some; exact Hrow.
    + reflexivity.
  - injection Hstop as <-. eauto.
Qed.

Lemma cleared_lookup (h : option nat) (m : gmap nat Timer) (i : nat) (t : Timer) :
  cleared h m !! i = Some t → m !! i = Some t ∧ h ≠ Some i.
Proof.
  destruct h as [x|]; cbn [cleared]; [|by intros ->].
  intros H. apply lookup_delete_Some in H as [Hne H]. split; [done | congruence].
Qed.

Lemma clearIfSet_timers h w : timers (clearIfSet h w) = cleared h (timers w).
Proof. destruct h; reflexivity. Qed.
Lemma clearIfSet_rows h w : rows (clearIfSet h w) = rows w.
Proof. destruct h; reflexivity. Qed.
Lemma clearIfSet_globalState h w : globalState (clearIfSet h w) = globalState w.
Proof. destruct h; reflexivity. Qed.

Lemma clearIfSet_audios h w : audios (clearIfSet h w) = audios w.
Proof. destruct h; reflexivity. Qed.

(** A timer callback registers nothing and leaves rows and store alone. *)
Lemma run_handler_frame (h : TimerHandler) (w w' : World) :
  run_handler h w = Some w' →
  rows w' = rows w ∧ globalState w' = globalState w ∧
  ∀ i t, timers w' !! i = Some t → timers w !! i = Some t.
Proof.
  destruct h as [a fi|a fo|a]; cbn [run_handler];
    destruct (audios w !! a) as [el|]; cbn [mbind option_bind]; try discriminate.
  - destruct (volume el <? 1)%float; intros [= <-]; [done|].
    rewrite clearIfSet_rows, clearIfSet_globalState, clearIfSet_timers.
    repeat split. intros i t H. by apply cleared_lookup in H as [H _].
  - destruct (0 <? volume el)%float; intros [= <-]; [done|].
    rewrite clearIfSet_rows, clearIfSet_globalState, clearIfSet_timers.
    repeat split. intros i t H. by apply cleared_lookup in H as [H _].
  - by intros [= <-].
Qed.

Lemma run_handler_nextTimer (h : TimerHandler) (w w' : World) :
  run_handler h w = Some w' → nextTimer w' = nextTimer w.
Proof.
  destruct h as [a fi|a fo|a]; cbn [run_handler];
    destruct (audios w !! a) as [el|]; cbn [mbind option_bind]; try discriminate.
  - destruct (volume el <? 1)%float; intros [= <-]; [done | by destruct fi].
  - destruct (0 <? volume el)%float; intros [= <-]; [done | by destruct fo].
  - by intros [= <-].
Qed.

Lemma run_handler_audios (h : TimerHandler) (w w' : World) :
  run_handler h w = Some w' → handled h (audios w) = Some (audios w').
Proof.
  destruct h as [a fi|a fo|a]; cbn [run_handler handled];
    destruct (audios w !! a) as [el|]; cbn [mbind option_bind]; try discriminate.
  - destruct (volume el <? 1)%float; intros [= <-];
      [reflexivity | by rewrite clearIfSet_audios].
  - destruct (0 <? volume el)%float; intros [= <-];
      [reflexivity | by rewrite clearIfSet_audios].
  - intros [= <-]. reflexivity.
Qed.

Lemma fire_frame (handle : nat) (w w' : World) :
  fire handle w = Some w' →
  rows w' = rows w ∧ globalState w' = globalState w ∧
  ∀ i t, timers w' !! i = Some t →
         ∃ t0, timers w !! i = Some t0 ∧ callback t0 = callback t.
Proof.
  unfold fire. destruct (timers w !! handle) as [t|] eqn:Ht; [|discriminate].
  cbn [mbind option_bind]. destruct (due t <=? clock w)%Z; [|discriminate].
  destruct (repeating t).
  - destruct (run_handler (callback t) w) as [w1|] eqn:Hh; [|discriminate].
    cbn [mbind option_bind]. apply run_handler_frame in Hh as (Hr & Hg & Hsub).
    destruct (timers w1 !! handle) as [t'|] eqn:Ht'; intros [= <-]; world_simpl.
    + repeat split; try done. intros i ti Hi.
      destruct (decide (handle = i)) as [<-|Hne].
      * rewrite lookup_insert_eq in Hi. injection Hi as <-. eauto.
      * rewrite lookup_insert_ne in Hi by done. eauto.
    + repeat split; try done. eauto.
  - intros Hh. apply run_handler_frame in Hh as (Hr & Hg & Hsub).
    repeat split; try done. intros i ti Hi. apply Hsub in Hi. world_simpl.
    apply lookup_delete_Some in Hi as [_ Hi]. eauto.
Qed.

Lemma fire_repeating (handle : nat) (w w' : World) (i : nat) (t : Timer) :
  fire handle w = Some w' → timers w' !! i = Some t →
  ∃ t0, timers w !! i = Some t0 ∧ callback t0 = callback t ∧ repeating t0 = repeating t.
Proof.
  unfold fire. destruct (timers w !! handle) as [th|] eqn:Hth; [|discriminate].
  cbn [mbind option_bind]. destruct (due th <=? clock w)%Z; [|discriminate].
  destruct (repeating th).
  - destruct (run_handler (callback th) w) as [w1|] eqn:Hh; [|discriminate].
    cbn [mbind option_bind]. apply run_handler_frame in Hh as (_ & _ & Hsub).
    destruct (timers w1 !! handle) as [t'|] eqn:Ht'; intros [= <-]; world_simpl.
    + intros Hi. destruct (decide (handle = i)) as [<-|Hne].
      * rewrite lookup_insert_eq in Hi. injection Hi as <-. eauto.
      * rewrite lookup_insert_ne in Hi by done. eauto.
    + eauto.
  - intros Hh Hi. apply run_handler_frame in Hh as (_ & _ & Hsub).
    apply Hsub in Hi. world_simpl. apply lookup_delete_Some in Hi as [_ Hi]. eauto.
Qed.

Lemma fire_nextTimer (handle : nat) (w w' : World) :
  fire handle w = Some w' → nextTimer w' = nextTimer w.
Proof.
  unfold fire. destruct (timers w !! handle) as [t|]; [|discriminate].
  cbn [mbind option_bind]. destruct (due t <=? clock w)%Z; [|discriminate].
  destruct (repeating t).
  - destruct (run_handler (callback t) w) as [w1|] eqn:Hh; [|discriminate].
    cbn [mbind option_bind]. apply run_handler_nextTimer in Hh.
    by destruct (timers w1 !! handle); intros [= <-].
  - intros Hh. by apply run_handler_nextTimer in Hh.
Qed.

Lemma fire_audios (handle : nat) (w w' : World) (t : Timer) :
  timers w !! handle = Some t → fire handle w = Some w' →
  handled (callback t) (audios w) = Some (audios w').
Proof.
  intros Ht. unfold fire. rewrite Ht. cbn [mbind option_bind].
  destruct (due t <=? clock w)%Z; [|discriminate].
  destruct (repeating t).
  - destruct (run_handler (callback t) w) as [w1|] eqn:Hh; [|discriminate].
    cbn [mbind option_bind]. apply run_handler_audios in Hh.
    destruct (timers w1 !! handle); intros [= <-]; exact Hh.
  - intros Hh. apply run_handler_audios in Hh. exact Hh.
Qed.

Lemma setInteractable_rows (r : nat) (b : bool) (w : World) (i : nat) (row : TrackRow) :
  rows w !! i = Some row →
  ∃ row', rows (setInteractable r b w) !! i = Some row' ∧
          track row' = track row ∧ audio row' = audio row ∧ fadeIn row' = fadeIn row.
Proof.
  intros Hi. unfold setInteractable. destruct (rows w !! r) as [row0|] eqn:Hr; [|eauto].
  world_simpl. destruct (decide (r = i)) as [->|Hne].
  - rewrite list_lookup_insert_eq by (eapply lookup_lt_Some; exact Hi).
    assert (row0 = row) as -> by congruence. eauto.
  - rewrite list_lookup_insert_ne by done. eauto.
Qed.

Lemma setInteractable_slots (r : nat) (b : bool) (w : World) (i : nat) (row' : TrackRow) :
  rows (setInteractable r b w) !! i = Some row' →
  ∃ row, rows w !! i = Some row ∧ fadeIn row' = fadeIn row ∧ fadeOut row' = fadeOut row.
Proof.
  unfold setInteractable. destruct (rows w !! r) as [row0|] eqn:Hr; [|eauto].
  world_simpl. destruct (decide (r = i)) as [->|Hne].
  - rewrite list_lookup_insert_eq by (eapply lookup_lt_Some; exact Hr).
    intros [= <-]. eauto.
  - rewrite list_lookup_insert_ne by done. eauto.
Qed.

Lemma setInteractable_tracks (r : nat) (b : bool) (w : World) :
  track <$> rows (setInteractable r b w) = track <$> rows w.
Proof.
  unfold setInteractable. destruct (rows w !! r) as [row|] eqn:Hr; [|done].
  world_simpl. rewrite list_fmap_insert. cbn [track].
  apply list_insert_id. by rewrite list_lookup_fmap, Hr.
Qed.

Lemma setInteractable_frame (r : nat) (b : bool) (w : World) :
  timers (setInteractable r b w) = timers w ∧
  globalState (setInteractable r b w) = globalState w.
Proof. unfold setInteractable. by destruct (rows w !! r). Qed.

Lemma onFulfilled_frame (pr : PlayPromise) (w : World) :
  timers (onFulfilled pr w) = timers w ∧
  activeTrack (globalState (onFulfilled pr w)) = activeTrack (globalState w) ∧
  rows (onFulfilled pr w) = rows (setInteractable (owner pr) true w).
Proof.
  unfold onFulfilled. destruct (setInteractable_frame (owner pr) true w) as [Ht Hg].
  destruct (notified pr); world_simpl; by rewrite ?Ht, ?Hg.
Qed.

Lemma onRejected_frame (pr : PlayPromise) (error : Rejection) (w : World) :
  timers (onRejected pr error w) = timers w ∧
  activeTrack (globalState (onRejected pr error w)) = activeTrack (globalState w) ∧
  rows (onRejected pr error w) = rows w.
Proof.
  unfold onRejected.
  by destruct (JS.includes (message_of error) no_interaction), (negb (notified pr)),
       (negb (JS.includes (message_of error) interrupted)).
Qed.

Lemma step_audios (e : Event) (w w' : World) :
  step e w = Some w' →
  audios w' = audios w ∨
  (∃ url, audios w' = audios w ++ [{| src := url; volume := 0%float; paused := false |}]) ∨
  (∃ handle t, e = TimerFires handle ∧ timers w !! handle = Some t ∧
               handled (callback t) (audios w) = Some (audios w')).
Proof.
  destruct e as [r|r|ms|handle|p|p error]; cbn [step].
  - destruct (rows w !! r) as [row|]; [|discriminate]. cbn [mbind option_bind].
    intros [= <-]. destruct (play_cases w r row) as [-> | (Ha & c & url & Hurl)];
      [by left|].
    right. left. exists (String c url). by rewrite (play_session w r row c url Ha Hurl).
  - destruct (rows w !! r) as [row|]; [|discriminate]. cbn [mbind option_bind].
    intros Hstop. left.
    destruct (stop_cases _ _ _ _ Hstop) as [[_ ->] | (a & el & Ha & Hel)]; [done|].
    rewrite (stop_session w r row a el Ha Hel) in Hstop. by injection Hstop as <-.
  - destruct (0 <=? ms)%Z; [|discriminate]. intros [= <-]. by left.
  - intros Hfire. destruct (timers w !! handle) as [t|] eqn:Ht.
    + right. right. exists handle, t. eauto using fire_audios.
    + unfold fire in Hfire. by rewrite Ht in Hfire.
  - destruct (promises w !! p) as [pr|]; [|discriminate]. cbn [mbind option_bind].
    destruct (settled pr); [discriminate|]. intros [= <-]. left.
    unfold onFulfilled, setInteractable, settle. world_simpl.
    by destruct (rows w !! owner pr), (notified pr).
  - destruct (promises w !! p) as [pr|]; [|discriminate]. cbn [mbind option_bind].
    destruct (settled pr); [discriminate|]. intros [= <-]. left.
    unfold onRejected, settle.
    by destruct (JS.includes (message_of error) no_interaction), (negb (notified pr)),
         (negb (JS.includes (message_of error) interrupted)).
Qed.

(** ** Worlds reached from the initial one *)

Lemma run_invariant (P : World → Prop) :
  (∀ e w w', P w → step e w = Some w' → P w') →
  ∀ es w w', P w → run es w = Some w' → P w'.
Proof.
  intros Hstep es. induction es as [|e es IH]; intros w w' Hw; cbn [run].
  - by intros [= <-].
  - destruct (step e w) as [w1|] eqn:He; [|discriminate]. cbn [mbind option_bind].
    apply IH. eapply Hstep; eauto.
Qed.

(** ** The volume ladder *)

Lemma level_0 : level 0 = 0%float. Proof. reflexivity. Qed.
Lemma level_20 : level 20 = 1%float. Proof. reflexivity. Qed.

Ltac by_levels k :=
  do 21 (destruct k as [|k]; [vm_compute; reflexivity|]); lia.

Lemma level_up (k : nat) :
  k < 20 → JS.Number_toFixed2 (level k + 0.05)%float = level (S k).
Proof. intros Hk. by_levels k. Qed.

Lemma level_down (k : nat) :
  k < 20 → JS.Number_toFixed2 (level (S k) - 0.05)%float = level k.
Proof. intros Hk. by_levels k. Qed.

Lemma level_in_range (k : nat) :
  k ≤ 20 → (PrimFloat.leb 0 (level k) && PrimFloat.leb (level k) 1)%bool = true.
Proof. intros Hk. by_levels k. Qed.

Lemma level_below_ceiling (k : nat) :
  k ≤ 20 → (level k <? 1)%float = (k <? 20).
Proof. intros Hk. by_levels k. Qed.

Lemma level_above_floor (k : nat) :
  k ≤ 20 → (0 <? level k)%float = (0 <? k).
Proof. intros Hk. by_levels k. Qed.

Lemma level_step_le (k : nat) :
  k < 20 → (level k <=? level (S k))%float = true.
Proof. intros Hk. by_levels k. Qed.


Lemma louder_level (el : HTMLAudioElement) (k : nat) :
  k < 20 → volume el = level k → volume (louder el) = level (S k).
Proof.
  intros Hk Hv. unfold louder, set_volume. rewrite Hv, (level_up k Hk).
  rewrite level_in_range by lia. reflexivity.
Qed.

Lemma quieter_level (el : HTMLAudioElement) (k : nat) :
  k < 20 → volume el = level (S k) → volume (quieter el) = level k.
Proof.
  intros Hk Hv. unfold quieter, set_volume. rewrite Hv, (level_down k Hk).
  rewrite level_in_range by lia. reflexivity.
Qed.

Lemma handled_ladder (h : TimerHandler) (l l' : list HTMLAudioElement) :
  (∀ a el, l !! a = Some el → ∃ k, k ≤ 20 ∧ volume el = level k) →
  handled h l = Some l' →
  (∀ a el, l' !! a = Some el → ∃ k, k ≤ 20 ∧ volume el = level k).
Proof.
  intros Hl Hh b el' Hb.
  assert (Hset : ∀ a el0 el1, l !! a = Some el0 →
            (∃ k, k ≤ 20 ∧ volume el1 = level k) →
            <[a := el1]> l !! b = Some el' → ∃ k, k ≤ 20 ∧ volume el' = level k).
  { intros a el0 el1 Ha H1 Hb'. destruct (decide (a = b)) as [->|Hne].
    - rewrite list_lookup_insert_eq in Hb' by (eapply lookup_lt_Some; exact Ha).
      injection Hb' as <-. exact H1.
    - rewrite list_lookup_insert_ne in Hb' by exact Hne. eauto. }
  destruct h as [a fi|a fo|a]; cbn [handled] in Hh;
    destruct (l !! a) as [el|] eqn:Ha; cbn [mbind option_bind] in Hh; try discriminate;
    injection Hh as <-; destruct (Hl a el Ha) as (k & Hk & Hv).
  - destruct (volume el <? 1)%float eqn:Hlt; [|eauto].
    rewrite Hv, level_below_ceiling in Hlt by exact Hk. apply Nat.ltb_lt in Hlt.
    eapply Hset; [exact Ha | | exact Hb].
    exists (S k). split; [lia | by apply louder_level].
  - destruct (0 <? volume el)%float eqn:Hlt; [|eauto].
    rewrite Hv, level_above_floor in Hlt by exact Hk. apply Nat.ltb_lt in Hlt.
    destruct k as [|k]; [lia|].
    eapply Hset; [exact Ha | | exact Hb].
    exists k. split; [lia | apply quieter_level; [lia | exact Hv]].
  - eapply Hset; [exact Ha | | exact Hb]. exists k. split; [exact Hk | exact Hv].
Qed.

Lemma step_ladder (e : Event) (w w' : World) :
  on_ladder w → step e w = Some w' → on_ladder w'.
Proof.
  intros Hw He. destruct (step_audios e w w' He) as [Heq | [(url & Heq) | (h & t & _ & _ & Hh)]].
  - unfold on_ladder. by rewrite Heq.
  - unfold on_ladder. rewrite Heq. intros a el Ha.
    apply lookup_app_Some in Ha as [Ha | (_ & Ha)]; [eauto|].
    apply list_lookup_singleton_Some in Ha as [_ <-]. exists 0. split; [lia | reflexivity].
  - exact (handled_ladder _ _ _ Hw Hh).
Qed.

Lemma reachable_ladder (tracks : list SpotifyTrack) (es : list Event) (w : World) :
  run es (init tracks) = Some w → on_ladder w.
Proof.
  apply (run_invariant on_ladder); [exact step_ladder|].
  intros a el Ha. cbn in Ha. by rewrite lookup_nil in Ha.
Qed.

(** ** Timer handles *)

Lemma init_handles_ordered (tracks : list SpotifyTrack) : handles_ordered (init tracks).
Proof.
  split.
  - intros h t Ht. cbn in Ht. by rewrite lookup_empty in Ht.
  - intros r row x Hrow Hx. cbn [init rows] in Hrow.
    rewrite list_lookup_fmap in Hrow.
    destruct (tracks !! r); [|discriminate]. injection Hrow as <-.
    by destruct Hx.
Qed.

Lemma step_handles_ordered (e : Event) (w w' : World) :
  handles_ordered w → step e w = Some w' → handles_ordered w'.
Proof.
  intros [Htimers Hslots].
  destruct e as [r|r|ms|handle|p|p error]; cbn [step].
  - destruct (rows w !! r) as [row|] eqn:Hrow; [|discriminate].
    cbn [mbind option_bind]. intros [= <-].
    destruct (play_cases w r row) as [-> | (Ha & c & url & Hurl)]; [done|].
    rewrite (play_session w r row c url Ha Hurl).
    pose proof (lookup_lt_Some _ _ _ Hrow) as Hr.
    split; world_simpl.
    + intros h t Ht. destruct (decide (nextTimer w = h)) as [<-|Hne].
      * rewrite lookup_insert_eq in Ht. injection Ht as <-. cbn [callback captured].
        split; [lia|]. intros x Hx. apply (Hslots r row x Hrow). by left.
      * rewrite lookup_insert_ne in Ht by done.
        destruct (Htimers h t Ht) as [Hlt Hcap]. split; [lia | done].
    + intros r0 row0 x Hr0 Hx. destruct (decide (r = r0)) as [<-|Hne].
      * rewrite list_lookup_insert_eq in Hr0 by done. injection Hr0 as <-.
        cbn [fadeIn fadeOut] in Hx. destruct Hx as [[= <-]|Hx]; [lia|].
        enough (x < nextTimer w) by lia. apply (Hslots r row x Hrow). by right.
      * rewrite list_lookup_insert_ne in Hr0 by done.
        enough (x < nextTimer w) by lia. eauto.
  - destruct (rows w !! r) as [row|] eqn:Hrow; [|discriminate].
    cbn [mbind option_bind]. intros Hstop.
    destruct (stop_cases _ _ _ _ Hstop) as [[_ ->] | (a & el & Ha & Hel)]; [done|].
    rewrite (stop_session w r row a el Ha Hel) in Hstop. injection Hstop as <-.
    pose proof (lookup_lt_Some _ _ _ Hrow) as Hr.
    split; world_simpl.
    + intros h t Ht. destruct (decide (S (nextTimer w) = h)) as [<-|Hne1].
      { rewrite lookup_insert_eq in Ht. injection Ht as <-. cbn [callback captured].
        split; [lia | discriminate]. }
      rewrite lookup_insert_ne in Ht by done.
      destruct (decide (nextTimer w = h)) as [<-|Hne2].
      { rewrite lookup_insert_eq in Ht. injection Ht as <-. cbn [callback captured].
        split; [lia|]. intros x Hx. apply (Hslots r row x Hrow). by right. }
      rewrite lookup_insert_ne in Ht by done.
      apply cleared_lookup in Ht as [Ht _].
      destruct (Htimers h t Ht) as [Hlt Hcap]. split; [lia | done].
    + intros r0 row0 x Hr0 Hx. destruct (decide (r = r0)) as [<-|Hne].
      * rewrite list_lookup_insert_eq in Hr0 by done. injection Hr0 as <-.
        cbn [fadeIn fadeOut] in Hx. destruct Hx as [Hx|[= <-]]; [|lia].
        enough (x < nextTimer w) by lia. apply (Hslots r row x Hrow). by left.
      * rewrite list_lookup_insert_ne in Hr0 by done.
        enough (x < nextTimer w) by lia. eauto.
  - destruct (0 <=? ms)%Z; [|discriminate]. by intros [= <-].
  - intros Hfire. pose proof (fire_nextTimer _ _ _ Hfire) as Hn.
    apply fire_frame in Hfire as (Hr & _ & Hsub). split.
    + intros h t Ht. apply Hsub in Ht as (t0 & Ht0 & Hcb). rewrite Hn, <- Hcb. eauto.
    + rewrite Hr, Hn. exact Hslots.
  - destruct (promises w !! p) as [pr|]; [|discriminate]. cbn [mbind option_bind].
    destruct (settled pr); [discriminate|]. intros [= <-].
    destruct (onFulfilled_frame pr (settle p pr w)) as (Ht & _ & Hr).
    assert (Hn : nextTimer (onFulfilled pr (settle p pr w)) = nextTimer w).
    { unfold onFulfilled, setInteractable, settle. world_simpl.
      by destruct (rows w !! owner pr), (notified pr). }
    split.
    + rewrite Ht, Hn. exact Htimers.
    + rewrite Hr, Hn. intros r0 row' x Hr0 Hx.
      apply setInteractable_slots in Hr0 as (row0 & Hr0 & Hfi & Hfo).
      apply (Hslots r0 row0 x Hr0). by rewrite <- Hfi, <- Hfo.
  - destruct (promises w !! p) as [pr|]; [|discriminate]. cbn [mbind option_bind].
    destruct (settled pr); [discriminate|]. intros [= <-].
    destruct (onRejected_frame pr error (settle p pr w)) as (Ht & _ & Hr).
    assert (Hn : nextTimer (onRejected pr error (settle p pr w)) = nextTimer w).
    { unfold onRejected, settle.
      by destruct (JS.includes (message_of error) no_interaction), (negb (notified pr)),
           (negb (JS.includes (message_of error) interrupted)). }
    split.
    + rewrite Ht, Hn. exact Htimers.
    + rewrite Hr, Hn. exact Hslots.
Qed.

Lemma init_handles_invariant (tracks : list SpotifyTrack) :
  handles_invariant (init tracks).
Proof.
  split; [apply init_handles_ordered|].
  intros h t Ht. cbn in Ht. by rewrite lookup_empty in Ht.
Qed.

Lemma step_handles_invariant (e : Event) (w w' : World) :
  handles_invariant w → step e w = Some w' → handles_invariant w'.
Proof.
  intros [Hord Hpriv] Hstep. split; [by eapply step_handles_ordered|].
  destruct Hord as [Htimers Hslots]. revert Hstep.
  destruct e as [r|r|ms|handle|p|p error]; cbn [step].
  - destruct (rows w !! r) as [row|] eqn:Hrow; [|discriminate].
    cbn [mbind option_bind]. intros [= <-].
    destruct (play_cases w r row) as [-> | (Ha & c & url & Hurl)]; [done|].
    rewrite (play_session w r row c url Ha Hurl).
    pose proof (lookup_lt_Some _ _ _ Hrow) as Hr.
    intros h t Ht Hrep. world_simpl.
    destruct (decide (nextTimer w = h)) as [<-|Hne].
    { rewrite lookup_insert_eq in Ht. by injection Ht as <-. }
    rewrite lookup_insert_ne in Ht by done.
    destruct (Hpriv h t Ht Hrep) as [Hrows Hcap]. destruct (Htimers h t Ht) as [Hlt _].
    split.
    + intros r0 row0 Hr0. destruct (decide (r = r0)) as [<-|Hner].
      * rewrite list_lookup_insert_eq in Hr0 by done. injection Hr0 as <-.
        cbn [fadeIn fadeOut]. split; [intros [= Heq]; lia | by apply (Hrows r row)].
      * rewrite list_lookup_insert_ne in Hr0 by done. eauto.
    + intros h' t' Ht'. destruct (decide (nextTimer w = h')) as [<-|Hne'].
      * rewrite lookup_insert_eq in Ht'. injection Ht' as <-. cbn [callback captured].
        by apply (Hrows r row).
      * rewrite lookup_insert_ne in Ht' by done. eauto.
  - destruct (rows w !! r) as [row|] eqn:Hrow; [|discriminate].
    cbn [mbind option_bind]. intros Hstop.
    destruct (stop_cases _ _ _ _ Hstop) as [[_ ->] | (a & el & Ha & Hel)]; [done|].
    rewrite (stop_session w r row a el Ha Hel) in Hstop. injection Hstop as <-.
    pose proof (lookup_lt_Some _ _ _ Hrow) as Hr.
    intros h t Ht Hrep. world_simpl.
    assert (Hold : ∀ i ti, (<[S (nextTimer w) :=
                     {| callback := pauseAudio a;
                        timeout := ((volume el / 0.05) * 100)%float; repeating := false;
                        due := (clock w + JS.timeout_ms ((volume el / 0.05) * 100)%float)%Z |}]>
                   (<[nextTimer w :=
                        {| callback := fadeOutTick a (fadeOut row); timeout := 100%float;
                           repeating := true; due := (clock w + 100)%Z |}]>
                      (cleared (fadeIn row) (timers w)))) !! i = Some ti →
              (i = S (nextTimer w) ∧ captured (callback ti) = None ∧ repeating ti = false) ∨
              (i = nextTimer w ∧ captured (callback ti) = fadeOut row ∧ repeating ti = true) ∨
              (i < nextTimer w ∧ timers w !! i = Some ti)).
    { intros i ti Hi. destruct (decide (S (nextTimer w) = i)) as [<-|Hne1].
      { rewrite lookup_insert_eq in Hi. injection Hi as <-. by left. }
      rewrite lookup_insert_ne in Hi by done.
      destruct (decide (nextTimer w = i)) as [<-|Hne2].
      { rewrite lookup_insert_eq in Hi. injection Hi as <-. right. by left. }
      rewrite lookup_insert_ne in Hi by done.
      apply cleared_lookup in Hi as [Hi _]. right. right.
      split; [by apply (Htimers i ti) | done]. }
    assert (Hrows' : ∀ r0 row0 x,
              <[r := {| track := track row; audio := None; fadeIn := fadeIn row;
                        fadeOut := Some (nextTimer w);
                        interactable := interactable row |}]> (rows w) !! r0 = Some row0 →
              fadeIn row0 = Some x ∨ fadeOut row0 = Some x →
              x = nextTimer w ∨
              (x < nextTimer w ∧ ∃ row1, rows w !! r0 = Some row1 ∧
                 (fadeIn row1 = Some x ∨ fadeOut row1 = Some x))).
    { intros r0 row0 x Hr0 Hx. destruct (decide (r = r0)) as [<-|Hner].
      - rewrite list_lookup_insert_eq in Hr0 by done. injection Hr0 as <-.
        cbn [fadeIn fadeOut] in Hx. destruct Hx as [Hx|[= <-]]; [|by left].
        right. split; [apply (Hslots r row x Hrow); by left | eauto].
      - rewrite list_lookup_insert_ne in Hr0 by done. right.
        split; [by apply (Hslots r0 row0 x Hr0) | eauto]. }
    destruct (Hold h t Ht) as [(-> & _ & _) | [(-> & _ & Hrep') | (Hlt & Ht0)]];
      [| congruence |].
    + split.
      * intros r0 row0 Hr0.
        split; intros Hx;
          [destruct (Hrows' r0 row0 _ Hr0 (or_introl Hx)) as [?|[? _]]
          |destruct (Hrows' r0 row0 _ Hr0 (or_intror Hx)) as [?|[? _]]]; lia.
      * intros h' t' Ht' Hcap.
        destruct (Hold h' t' Ht') as [(-> & Hc & _) | [(-> & Hc & _) | (Hlt' & Ht0')]].
        -- congruence.
        -- rewrite Hc in Hcap. pose proof (Hslots r row _ Hrow (or_intror Hcap)). lia.
        -- destruct (Htimers h' t' Ht0') as [_ Hc]. specialize (Hc _ Hcap). lia.
    + destruct (Hpriv h t Ht0 Hrep) as [Hrows Hcap]. split.
      * intros r0 row0 Hr0.
        split; intros Hx;
          [destruct (Hrows' r0 row0 _ Hr0 (or_introl Hx)) as [?|[_ (row1 & Hr1 & Hx1)]]
          |destruct (Hrows' r0 row0 _ Hr0 (or_intror Hx)) as [?|[_ (row1 & Hr1 & Hx1)]]];
          try lia; destruct (Hrows r0 row1 Hr1); destruct Hx1; congruence.
      * intros h' t' Ht' Hc.
        destruct (Hold h' t' Ht') as [(-> & Hc' & _) | [(-> & Hc' & _) | (Hlt' & Ht0')]].
        -- congruence.
        -- rewrite Hc' in Hc. destruct (Hrows r row Hrow). congruence.
        -- by apply (Hcap h' t' Ht0').
  - destruct (0 <=? ms)%Z; [|discriminate]. by intros [= <-].
  - intros Hfire. pose proof (fire_frame _ _ _ Hfire) as (Hr & _ & _).
    intros h t Ht Hrep.
    destruct (fire_repeating _ _ _ _ _ Hfire Ht) as (t0 & Ht0 & _ & Hrep0).
    destruct (Hpriv h t0 Ht0) as [Hrows Hcap]; [congruence|].
    split; [by rewrite Hr|].
    intros h' t' Ht'. destruct (fire_repeating _ _ _ _ _ Hfire Ht') as (t1 & Ht1 & Hcb & _).
    rewrite <- Hcb. eauto.
  - destruct (promises w !! p) as [pr|]; [|discriminate]. cbn [mbind option_bind].
    destruct (settled pr); [discriminate|]. intros [= <-].
    destruct (onFulfilled_frame pr (settle p pr w)) as (Ht & _ & Hr).
    intros h t Hh Hrep. rewrite Ht in Hh. destruct (Hpriv h t Hh Hrep) as [Hrows Hcap].
    split.
    + rewrite Hr. intros r0 row' Hr0.
      apply setInteractable_slots in Hr0 as (row0 & Hr0 & -> & ->). eauto.
    + by rewrite Ht.
  - destruct (promises w !! p) as [pr|]; [|discriminate]. cbn [mbind option_bind].
    destruct (settled pr); [discriminate|]. intros [= <-].
    destruct (onRejected_frame pr error (settle p pr w)) as (Ht & _ & Hr).
    intros h t Hh Hrep. rewrite Ht in Hh. rewrite Hr, Ht. exact (Hpriv h t Hh Hrep).
Qed.

(** Only its own run unregisters a one-shot timer. *)
Lemma timeout_survives (e : Event) (w w' : World) (h : nat) (t : Timer) :
  handles_invariant w → timers w !! h = Some t → repeating t = false →
  e ≠ TimerFires h → step e w = Some w' → timers w' !! h = Some t.
Proof.
  intros [[Htimers Hslots] Hpriv] Ht Hrep Hne.
  destruct (Hpriv h t Ht Hrep) as [Hrows Hcap]. destruct (Htimers h t Ht) as [Hlt _].
  destruct e as [r|r|ms|handle|p|p error]; cbn [step].
  - destruct (rows w !! r) as [row|] eqn:Hrow; [|discriminate].
    cbn [mbind option_bind]. intros [= <-].
    destruct (play_cases w r row) as [-> | (Ha & c & url & Hurl)]; [done|].
    rewrite (play_session w r row c url Ha Hurl). world_simpl.
    rewrite lookup_insert_ne by lia. done.
  - destruct (rows w !! r) as [row|] eqn:Hrow; [|discriminate].
    cbn [mbind option_bind]. intros Hstop.
    destruct (stop_cases _ _ _ _ Hstop) as [[_ ->] | (a & el & Ha & Hel)]; [done|].
    rewrite (stop_session w r row a el Ha Hel) in Hstop. injection Hstop as <-.
    world_simpl. rewrite !lookup_insert_ne by lia.
    destruct (Hrows r row Hrow) as [Hfi _].
    destruct (fadeIn row) as [x|]; cbn [cleared]; [|done].
    rewrite lookup_delete_ne; [done | congruence].
  - destruct (0 <=? ms)%Z; [|discriminate]. by intros [= <-].
  - assert (Hhandle : handle ≠ h) by congruence.
    unfold fire. destruct (timers w !! handle) as [th|] eqn:Hth; [|discriminate].
    cbn [mbind option_bind]. destruct (due th <=? clock w)%Z; [|discriminate].
    assert (Hrun : ∀ w0 w1, timers w0 !! h = Some t →
              run_handler (callback th) w0 = Some w1 → timers w1 !! h = Some t).
    { intros w0 w1 Ht0. specialize (Hcap handle th Hth).
      destruct (callback th) as [a fi|a fo|a]; cbn [run_handler captured] in *;
        destruct (audios w0 !! a) as [el|]; cbn [mbind option_bind]; try discriminate.
      - destruct (volume el <? 1)%float; intros [= <-]; [done|].
        destruct fi as [x|]; [|done]. cbn. rewrite lookup_delete_ne; [done | congruence].
      - destruct (0 <? volume el)%float; intros [= <-]; [done|].
        destruct fo as [x|]; [|done]. cbn. rewrite lookup_delete_ne; [done | congruence].
      - by intros [= <-]. }
    destruct (repeating th).
    + destruct (run_handler (callback th) w) as [w1|] eqn:Hh; [|discriminate].
      cbn [mbind option_bind]. apply (Hrun w w1 Ht) in Hh.
      destruct (timers w1 !! handle); intros [= <-]; [|done].
      world_simpl. by rewrite lookup_insert_ne.
    + apply Hrun. world_simpl. by rewrite lookup_delete_ne.
  - destruct (promises w !! p) as [pr|]; [|discriminate]. cbn [mbind option_bind].
    destruct (settled pr); [discriminate|]. intros [= <-].
    destruct (onFulfilled_frame pr (settle p pr w)) as (-> & _ & _). done.
  - destruct (promises w !! p) as [pr|]; [|discriminate]. cbn [mbind option_bind].
    destruct (settled pr); [discriminate|]. intros [= <-].
    destruct (onRejected_frame pr error (settle p pr w)) as (-> & _ & _). done.
Qed.

(** ** Sessions and fade-in intervals across rows *)

Section Page.

Variable tracks : list SpotifyTrack.

Lemma init_page_invariant : page_invariant tracks (init tracks).
Proof.
  split; [|split].
  - cbn [init rows]. rewrite <- list_fmap_compose. apply list_fmap_id.
  - by left.
  - intros handle a (t & fi & Ht & _). cbn in Ht. by rewrite lookup_empty in Ht.
Qed.

Lemma step_page_invariant (e : Event) (w w' : World) :
  page_invariant tracks w → step e w = Some w' → page_invariant tracks w'.
Proof.
  intros (Htracks & Hmarker & Howned).
  destruct e as [r|r|ms|handle|p|p error]; cbn [step].
  - (* play *)
    destruct (rows w !! r) as [row|] eqn:Hrow; [|discriminate].
    cbn [mbind option_bind]. intros [= <-].
    destruct (play_cases w r row) as [-> | (Ha & c & url & Hurl)]; [done|].
    rewrite (play_session w r row c url Ha Hurl).
    pose proof (lookup_lt_Some _ _ _ Hrow) as Hr.
    split; [|split]; world_simpl.
    + rewrite list_fmap_insert. cbn [track]. rewrite <- Htracks.
      apply list_insert_id. by rewrite list_lookup_fmap, Hrow.
    + right. exists (track row). split; [|done].
      rewrite <- Htracks. apply list_elem_of_lookup. exists r.
      by rewrite list_lookup_fmap, Hrow.
    + intros handle a (t & fi & Ht & Hcb). cbn [timers] in Ht.
      destruct (decide (nextTimer w = handle)) as [<-|Hne].
      * rewrite lookup_insert_eq in Ht. injection Ht as <-.
        cbn [callback] in Hcb. injection Hcb as <- <-.
        eexists r, _. cbn [rows]. split; [by apply list_lookup_insert_eq|done].
      * rewrite lookup_insert_ne in Ht by done.
        destruct (Howned handle a) as (r0 & row0 & Hr0 & Hf0 & Ha0); [by exists t, fi|].
        exists r0, row0. cbn [rows]. split; [|done].
        rewrite list_lookup_insert_ne; [done|]. intros <-. congruence.
  - (* stop *)
    destruct (rows w !! r) as [row|] eqn:Hrow; [|discriminate].
    cbn [mbind option_bind]. intros Hstop.
    destruct (stop_cases _ _ _ _ Hstop) as [[_ ->] | (a & el & Ha & Hel)]; [done|].
    rewrite (stop_session w r row a el Ha Hel) in Hstop. injection Hstop as <-.
    pose proof (lookup_lt_Some _ _ _ Hrow) as Hr.
    split; [|split]; world_simpl.
    + rewrite list_fmap_insert. cbn [track]. rewrite <- Htracks.
      apply list_insert_id. by rewrite list_lookup_fmap, Hrow.
    + by left.
    + intros handle a0 (t & fi & Ht & Hcb). cbn [timers] in Ht.
      destruct (decide (S (nextTimer w) = handle)) as [<-|Hne1].
      { rewrite lookup_insert_eq in Ht. injection Ht as <-. discriminate. }
      rewrite lookup_insert_ne in Ht by done.
      destruct (decide (nextTimer w = handle)) as [<-|Hne2].
      { rewrite lookup_insert_eq in Ht. injection Ht as <-. discriminate. }
      rewrite lookup_insert_ne in Ht by done.
      apply cleared_lookup in Ht as [Ht Hnot].
      destruct (Howned handle a0) as (r0 & row0 & Hr0 & Hf0 & Ha0); [by exists t, fi|].
      exists r0, row0. cbn [rows]. split; [|done].
      rewrite list_lookup_insert_ne; [done|]. intros <-. congruence.
  - (* time passes *)
    destruct (0 <=? ms)%Z; [|discriminate]. by intros [= <-].
  - (* timer *)
    intros Hfire. apply fire_frame in Hfire as (Hr & Hg & Hsub).
    split; [|split].
    + by rewrite Hr.
    + unfold marker_valid. by rewrite Hg.
    + intros h a (t & fi & Ht & Hcb). apply Hsub in Ht as (t0 & Ht0 & Hcb0).
      rewrite Hr. apply Howned. exists t0, fi. split; [done | congruence].
  - (* play() fulfilled *)
    destruct (promises w !! p) as [pr|]; [|discriminate]. cbn [mbind option_bind].
    destruct (settled pr); [discriminate|]. intros [= <-].
    destruct (onFulfilled_frame pr (settle p pr w)) as (Ht & Hg & Hr).
    split; [|split].
    + by rewrite Hr, setInteractable_tracks.
    + unfold marker_valid. by rewrite Hg.
    + intros h a Hfi. unfold fading_in in Hfi. rewrite Ht in Hfi.
      destruct (Howned h a Hfi) as (r0 & row0 & Hr0 & Hf0 & Ha0).
      destruct (setInteractable_rows (owner pr) true (settle p pr w) r0 row0 Hr0)
        as (row' & Hrow' & _ & Ha' & Hf').
      exists r0, row'. rewrite Hr. split; [done|]. split; congruence.
  - (* play() rejected *)
    destruct (promises w !! p) as [pr|]; [|discriminate]. cbn [mbind option_bind].
    destruct (settled pr); [discriminate|]. intros [= <-].
    destruct (onRejected_frame pr error (settle p pr w)) as (Ht & Hg & Hr).
    split; [|split].
    + by rewrite Hr.
    + unfold marker_valid. by rewrite Hg.
    + intros h a Hfi. unfold fading_in in Hfi. rewrite Ht in Hfi. rewrite Hr.
      by apply Howned.
Qed.

(** C1, amended: in every world reached from the initial one, each
    registered fade-in interval is the one recorded in the [fadeIn] slot
    of a row whose [audio] slot holds the element it ramps, so a row has
    at most one session fading in, and a page with a single row has at
    most one in all; the active-track marker is one value, empty or the
    id of a track of the page. Rows are not coordinated with one another:
    sessions of different rows can fade in together. *)
Theorem one_fade_in_per_row (es : list Event) (w : World) :
  run es (init tracks) = Some w →
  (∀ handle a, fading_in w handle a →
     ∃ r row, rows w !! r = Some row ∧ fadeIn row = Some handle ∧ audio row = Some a) ∧
  (length (rows w) ≤ 1 →
   ∀ h1 h2 a1 a2, fading_in w h1 a1 → fading_in w h2 a2 → h1 = h2) ∧
  (activeTrack (globalState w) = ""%string ∨
   ∃ t, t ∈ tracks ∧ track_id t = activeTrack (globalState w)).
Proof.
  intros Hrun.
  destruct (run_invariant (page_invariant tracks) step_page_invariant es _ _
              init_page_invariant Hrun) as (Htracks & Hmarker & Howned).
  split; [exact Howned|]. split; [|exact Hmarker].
  intros Hlen h1 h2 a1 a2 H1 H2.
  destruct (Howned h1 a1 H1) as (r1 & row1 & Hr1 & Hf1 & _).
  destruct (Howned h2 a2 H2) as (r2 & row2 & Hr2 & Hf2 & _).
  pose proof (lookup_lt_Some _ _ _ Hr1). pose proof (lookup_lt_Some _ _ _ Hr2).
  assert (r1 = r2) as -> by lia. congruence.
Qed.

End Page.

Lemma one_fade_in_per_row_witness :
  let w := unwrap (run [onPlay 0; onPlay 1; onStop 0; onPlay 0] (init [a_mp3; b_mp3])) in
  (∀ handle a, fading_in w handle a →
     ∃ r row, rows w !! r = Some row ∧ fadeIn row = Some handle ∧ audio row = Some a) ∧
  (length (rows w) ≤ 1 →
   ∀ h1 h2 a1 a2, fading_in w h1 a1 → fading_in w h2 a2 → h1 = h2) ∧
  (activeTrack (globalState w) = ""%string ∨
   ∃ t, t ∈ [a_mp3; b_mp3] ∧ track_id t = activeTrack (globalState w)).
Proof.
  intros w.
  refine (one_fade_in_per_row [a_mp3; b_mp3] [onPlay 0; onPlay 1; onStop 0; onPlay 0] w _).
  vm_compute. reflexivity.
Defined.

(** C1, as stated, fails: the pointer rests on row 0 and the keyboard
    focus moves to row 1. Both rows hold a session and the fade-in
    intervals 1 and 2 are both registered. *)
Lemma two_rows_fade_in_together :
  ¬ (∀ tracks es w, run es (init tracks) = Some w → single_session w).
Proof.
  intros H.
  pose (w := unwrap (run [onPlay 0; onPlay 1] (init [a_mp3; b_mp3]))).
  assert (Hrun : run [onPlay 0; onPlay 1] (init [a_mp3; b_mp3]) = Some w)
    by (vm_compute; reflexivity).
  destruct (H _ _ _ Hrun) as [_ Hone].
  assert (H1 : fading_in w 1 0).
  { eexists _, _. split; [vm_compute; reflexivity | reflexivity]. }
  assert (H2 : fading_in w 2 1).
  { eexists _, _. split; [vm_compute; reflexivity | reflexivity]. }
  specialize (Hone 1 2 0 1 H1 H2). discriminate.
Qed.

(** The same schedule, then a punctual run of each interval: two rows
    with a session, two unpaused elements at volume 0.05, one marker. *)
Example two_rows_fade_in_together_state :
  (λ w, (audio <$> rows w, audios w, activeTrack (globalState w))) <$>
    run ([onPlay 0; onPlay 1] ++ [Elapse 100; TimerFires 1; TimerFires 2])
        (init [a_mp3; b_mp3])
  = Some ([Some 0; Some 1],
          [{| src := "http://x/a.mp3"; volume := 0.05%float; paused := false |};
           {| src := "http://x/b.mp3"; volume := 0.05%float; paused := false |}],
          "b"%string).
Proof. vm_compute. reflexivity. Qed.

(** ** The fade-in interval at the ceiling *)

(** C2: first hover on a row, then 21 punctual runs of the fade-in
    interval. The 20th run brings the volume to exactly 1; the 21st finds
    it there and takes the [else if (fadeIn)] branch, where [fadeIn] is
    the value of the render in which [play] ran, null, so nothing is
    cleared: the interval (handle 1) is still registered, and its 22nd run
    takes place. *)
Theorem fade_in_interval_outlives_ceiling :
  let full := {| src := "http://x/a.mp3"; volume := 1%float; paused := false |} in
  (λ w, (audios w !! 0, timers w !! 1)) <$> run (onPlay 0 :: ticks 20 1) (init [a_mp3])
  = Some (Some full,
          Some {| callback := fadeInTick 0 None; timeout := 100%float;
                  repeating := true; due := 2100%Z |}) ∧
  (λ w, (audios w !! 0, timers w !! 1)) <$> run (onPlay 0 :: ticks 21 1) (init [a_mp3])
  = Some (Some full,
          Some {| callback := fadeInTick 0 None; timeout := 100%float;
                  repeating := true; due := 2200%Z |}) ∧
  (λ w, (audios w !! 0, timers w !! 1)) <$> run (onPlay 0 :: ticks 22 1) (init [a_mp3])
  = Some (Some full,
          Some {| callback := fadeInTick 0 None; timeout := 100%float;
                  repeating := true; due := 2300%Z |}).
Proof. repeat split; vm_compute; reflexivity. Qed.

(** X19: no fade-in or decrement callback closes over the handle of the
    interval it runs in: a run of an interval never unregisters that
    interval. *)
Lemma interval_never_clears_itself (tracks : list SpotifyTrack) (es : list Event)
    (w w' : World) (handle : nat) (t : Timer) :
  run es (init tracks) = Some w →
  timers w !! handle = Some t → repeating t = true →
  fire handle w = Some w' →
  captured (callback t) ≠ Some handle ∧
  ∃ t', timers w' !! handle = Some t' ∧ callback t' = callback t.
Proof.
  intros Hrun Ht Hrep Hfire.
  destruct (run_invariant handles_ordered step_handles_ordered es _ _
              (init_handles_ordered tracks) Hrun) as [Htimers _].
  destruct (Htimers handle t Ht) as [_ Hcap].
  assert (Hself : captured (callback t) ≠ Some handle).
  { intros Heq. specialize (Hcap handle Heq). lia. }
  split; [exact Hself|].
  unfold fire in Hfire. rewrite Ht in Hfire. cbn [mbind option_bind] in Hfire.
  destruct (due t <=? clock w)%Z; [|discriminate]. rewrite Hrep in Hfire.
  destruct (run_handler (callback t) w) as [w1|] eqn:Hh; [|discriminate].
  cbn [mbind option_bind] in Hfire.
  assert (Hkept : timers w1 !! handle = Some t).
  { destruct (callback t) as [a fi|a fo|a]; cbn [run_handler captured] in *;
      destruct (audios w !! a) as [el|]; cbn [mbind option_bind] in Hh;
      try discriminate.
    - destruct (volume el <? 1)%float; injection Hh as <-; [done|].
      destruct fi as [x|]; [|done]. cbn. rewrite lookup_delete_ne; [done | congruence].
    - destruct (0 <? volume el)%float; injection Hh as <-; [done|].
      destruct fo as [x|]; [|done]. cbn. rewrite lookup_delete_ne; [done | congruence].
    - by injection Hh as <-. }
  rewrite Hkept in Hfire. injection Hfire as <-. world_simpl.
  rewrite lookup_insert_eq. eauto.
Qed.

(** ** Settlement of [newAudio.play()] *)

(** C3, as stated, fails: after a rejected first attempt (advisory shown),
    the row is started and stopped again; the second request then
    succeeds although its session is gone, and the callback shows the
    acknowledgement, resets the advisory flag and sets the row's
    [interactable] flag. *)
Lemma late_success_changes_state :
  ¬ (∀ tracks es w, run es (init tracks) = Some w → late_success_is_noop w).
Proof.
  intros H.
  pose (es := [onPlay 0; PlayRejects 0 NotAllowedError; onStop 0; onPlay 0; onStop 0]).
  pose (w := unwrap (run es (init [a_mp3]))).
  pose (pr := {| owner := 0; element := 1; notified := true; settled := false |}).
  assert (Hrun : run es (init [a_mp3]) = Some w) by (vm_compute; reflexivity).
  assert (Hp : promises w !! 1 = Some pr) by (vm_compute; reflexivity).
  assert (Hstep : step (PlayResolves 1) w = Some (unwrap (step (PlayResolves 1) w)))
    by (vm_compute; reflexivity).
  assert (Hlate : superseded w pr).
  { intros row Hrow. vm_compute in Hrow. injection Hrow as <-. discriminate. }
  destruct (H [a_mp3] es w Hrun 1 pr _ Hp Hlate Hstep) as (Htoasts & _).
  vm_compute in Htoasts. discriminate.
Qed.

(** C3, amended: the success callback is applied whatever has become of
    its session. It sets the [interactable] flag of the row that made the
    request and, when [interactableNotified] was set at the time of the
    request, resets it and shows the acknowledgement; it touches no audio
    element, no timer and not the active-track marker. *)
Theorem success_applied_unconditionally (w : World) (p : nat) (pr : PlayPromise) :
  promises w !! p = Some pr → settled pr = false →
  ∃ w', step (PlayResolves p) w = Some w' ∧
    audios w' = audios w ∧ timers w' = timers w ∧ clock w' = clock w ∧
    activeTrack (globalState w') = activeTrack (globalState w) ∧
    rows w' = match rows w !! owner pr with
              | Some row =>
                  <[owner pr := {| track := track row; audio := audio row;
                                   fadeIn := fadeIn row; fadeOut := fadeOut row;
                                   interactable := true |}]> (rows w)
              | None => rows w
              end ∧
    if notified pr
    then interactableNotified (globalState w') = false ∧
         toasts w' = toasts w ++ [toast_success acknowledgement]
    else globalState w' = globalState w ∧ toasts w' = toasts w.
Proof.
  intros Hp Hpending. eexists. split.
  { cbn [step]. rewrite Hp. cbn [mbind option_bind]. rewrite Hpending. reflexivity. }
  unfold onFulfilled, setInteractable, settle. world_simpl.
  destruct (rows w !! owner pr) as [row|], (notified pr); world_simpl; repeat split.
Qed.

Lemma success_applied_unconditionally_witness :
  let w := unwrap (run [onPlay 0; PlayRejects 0 NotAllowedError; onStop 0; onPlay 0;
                        onStop 0] (init [a_mp3])) in
  ∃ w', step (PlayResolves 1) w = Some w' ∧
    audios w' = audios w ∧ timers w' = timers w ∧ clock w' = clock w ∧
    activeTrack (globalState w') = activeTrack (globalState w) ∧
    rows w' = [{| track := a_mp3; audio := None; fadeIn := Some 4; fadeOut := Some 5;
                  interactable := true |}] ∧
    interactableNotified (globalState w') = false ∧
    toasts w' = [toast advisory; toast_success acknowledgement].
Proof.
  intros w.
  pose proof (success_applied_unconditionally w 1
           {| owner := 0; element := 1; notified := true; settled := false |}) as H.
  vm_compute in H. vm_compute. apply H; reflexivity.
Defined.

(** C7: a first hover is rejected for want of an interaction (advisory
    shown, flag set). After a click the pointer passes over row 0 and on
    to row 1 before either element has started; both requests closed over
    [interactableNotified = true]. The first success resets the flag and
    shows the acknowledgement; the second finds the flag reset but tests
    the copy it closed over, and shows the acknowledgement again. *)
Theorem acknowledgement_shown_twice :
  let hovers :=
    [onPlay 0; PlayRejects 0 NotAllowedError; onStop 0; Elapse 0; TimerFires 3;
     onPlay 0] ++ tick 4 ++ [onStop 0; onPlay 1] in
  let observe := λ w, (toasts w, interactableNotified (globalState w),
                       notified <$> promises w) in
  observe <$> run hovers (init [a_mp3; b_mp3])
  = Some ([toast advisory], true, [false; true; true]) ∧
  observe <$> run (hovers ++ [PlayResolves 1]) (init [a_mp3; b_mp3])
  = Some ([toast advisory; toast_success acknowledgement], false,
          [false; true; true]) ∧
  observe <$> run (hovers ++ [PlayResolves 1; PlayResolves 2]) (init [a_mp3; b_mp3])
  = Some ([toast advisory; toast_success acknowledgement;
           toast_success acknowledgement], false, [false; true; true]).
Proof. repeat split; vm_compute; reflexivity. Qed.

(** C8: a rejection whose message is the interruption one (and not the
    missing-interaction one, which the handler tests first) is swallowed:
    the promise is marked settled and nothing else on the page changes; in
    particular no toast of any kind is shown. *)
Theorem interrupted_rejection_silent (w : World) (p : nat) (pr : PlayPromise)
    (error : Rejection) :
  promises w !! p = Some pr → settled pr = false →
  JS.includes (message_of error) interrupted = true →
  JS.includes (message_of error) no_interaction = false →
  step (PlayRejects p error) w = Some (settle p pr w) ∧
  toasts (settle p pr w) = toasts w ∧
  globalState (settle p pr w) = globalState w ∧
  rows (settle p pr w) = rows w ∧
  audios (settle p pr w) = audios w ∧
  timers (settle p pr w) = timers w.
Proof.
  intros Hp Hpending Hint Hno. cbn [step]. rewrite Hp. cbn [mbind option_bind].
  rewrite Hpending. unfold onRejected. rewrite Hno, Hint. cbn [negb].
  repeat split.
Qed.

Lemma interrupted_rejection_silent_witness :
  let w := unwrap (run [onPlay 0; onStop 0; Elapse 0; TimerFires 3] (init [a_mp3])) in
  let pr := {| owner := 0; element := 0; notified := false; settled := false |} in
  step (PlayRejects 0 AbortError) w = Some (settle 0 pr w) ∧
  toasts (settle 0 pr w) = toasts w ∧
  globalState (settle 0 pr w) = globalState w ∧
  rows (settle 0 pr w) = rows w ∧
  audios (settle 0 pr w) = audios w ∧
  timers (settle 0 pr w) = timers w.
Proof.
  intros w pr. apply (interrupted_rejection_silent w 0 pr AbortError); reflexivity.
Defined.

(** ** The two ramps and the release *)




(** In that schedule the third decrement is not yet due when the pause
    runs, and brings the volume of the paused element to 0 afterwards. *)
Example pause_precedes_last_decrement :
  let es := onPlay 0 :: ticks 3 1 ++ [onStop 0] ++ ticks 2 2 ++ [Elapse 99] in
  (λ w, (clock w, due <$> timers w !! 2, due <$> timers w !! 3)) <$>
    run es (init [a_mp3]) = Some (599%Z, Some 600%Z, Some 599%Z) ∧
  run (es ++ [TimerFires 2]) (init [a_mp3]) = None ∧
  (λ w, audios w !! 0) <$> run (es ++ [TimerFires 3; Elapse 1; TimerFires 2]) (init [a_mp3])
  = Some (Some {| src := "http://x/a.mp3"; volume := 0%float; paused := true |}).
Proof. repeat split; vm_compute; reflexivity. Qed.

(** ** The guards of [play] and [stop] *)



(** C6: [stop] on a row that holds no session changes nothing (no timer
    is registered, the marker stays, no pause is scheduled), and a second
    [stop] right after a first one is such a call. *)
Theorem stop_idempotent (w w' : World) (r : nat) :
  step (onStop r) w = Some w' →
  step (onStop r) w' = Some w' ∧
  (∀ row, rows w !! r = Some row → audio row = None → w' = w).
Proof.
  cbn [step]. intros Hstep.
  destruct (rows w !! r) as [row|] eqn:Hrow; [|discriminate].
  cbn [mbind option_bind] in Hstep. split.
  - destruct (stop_clears_session w w' r row Hrow Hstep) as (row' & Hrow' & Hnone).
    rewrite Hrow'. cbn [mbind option_bind]. unfold stop. rewrite Hnone. reflexivity.
  - intros ? [= <-] Hnone. unfold stop in Hstep. rewrite Hnone in Hstep. congruence.
Qed.

Lemma stop_idempotent_witness :
  let w := unwrap (run [onPlay 0; Elapse 100; TimerFires 1] (init [a_mp3])) in
  let w' := unwrap (step (onStop 0) w) in
  step (onStop 0) w' = Some w' ∧
  (∀ row, rows w !! 0 = Some row → audio row = None → w' = w).
Proof.
  intros w w'. apply (stop_idempotent w w' 0). vm_compute. reflexivity.
Defined.

(** ** The deferred pause *)



(** X20: whatever happens after [stop], short of its own run, the
    deferred pause of the stopped element stays registered. *)
Lemma pause_stays_registered (tracks : list SpotifyTrack) (es0 es : list Event)
    (w w1 w2 : World) (r : nat) (row : TrackRow) (a : nat) :
  run es0 (init tracks) = Some w →
  rows w !! r = Some row → audio row = Some a →
  step (onStop r) w = Some w1 →
  TimerFires (S (nextTimer w)) ∉ es → run es w1 = Some w2 →
  ∃ t, timers w2 !! S (nextTimer w) = Some t ∧ callback t = pauseAudio a ∧
       repeating t = false.
Proof.
  intros Hreach Hrow Ha Hstop Hnot Hrun.
  pose proof (run_invariant handles_invariant step_handles_invariant es0 _ _
                (init_handles_invariant tracks) Hreach) as Hinv.
  pose proof (step_handles_invariant _ _ _ Hinv Hstop) as Hinv1.
  cbn [step] in Hstop. rewrite Hrow in Hstop. cbn [mbind option_bind] in Hstop.
  destruct (stop_cases _ _ _ _ Hstop) as [[Hnone _] | (a' & el & Ha' & Hel)];
    [congruence|].
  assert (a' = a) as -> by congruence.
  rewrite (stop_session w r row a el Ha Hel) in Hstop. injection Hstop as Hw1.
  set (h := S (nextTimer w)) in *.
  set (t := {| callback := pauseAudio a; timeout := ((volume el / 0.05) * 100)%float;
               repeating := false;
               due := (clock w + JS.timeout_ms ((volume el / 0.05) * 100)%float)%Z |}).
  assert (Ht1 : timers w1 !! h = Some t) by (rewrite <- Hw1; apply lookup_insert_eq).
  exists t. split; [|done].
  clear Hw1 Hinv Hreach. revert w1 Hinv1 Ht1 Hrun.
  induction es as [|e es IH]; intros w1 Hinv1 Ht1; cbn [run].
  - by intros [= <-].
  - destruct (step e w1) as [w1'|] eqn:He; [|discriminate]. cbn [mbind option_bind].
    apply not_elem_of_cons in Hnot as [Hne Hnot].
    apply (IH Hnot).
    + by eapply step_handles_invariant.
    + eapply timeout_survives; eauto.
Qed.

(** ** Starting again while the previous element fades out *)

(** C10: on a row that holds a session, [stop] followed at once by [play]
    is not stopped by the guard of [play]: [stop] has emptied the [audio]
    slot, so a fresh element for the same track is created, played and
    ramped up, while the previous element is exactly as it was (not
    paused, at its volume) with its decrement interval registered. After
    the first run of the new fade-in interval both elements are unpaused
    and the new one is above volume 0. *)
Theorem restart_while_fading_out (w : World) (r : nat) (row : TrackRow) (a : nat)
    (el : HTMLAudioElement) (c : ascii) (url : string) :
  rows w !! r = Some row → audio row = Some a → audios w !! a = Some el →
  preview_url (track row) = Some (String c url) →
  let a' := length (audios w) in
  let handle := S (S (nextTimer w)) in
  a' ≠ a ∧
  ∃ w1 w2,
    run [onStop r; onPlay r] w = Some w1 ∧
    (∃ row', rows w1 !! r = Some row' ∧ audio row' = Some a') ∧
    activeTrack (globalState w1) = track_id (track row) ∧
    audios w1 !! a = Some el ∧
    audios w1 !! a' =
      Some {| src := String c url; volume := 0%float; paused := false |} ∧
    (∃ t, timers w1 !! nextTimer w = Some t ∧
          callback t = fadeOutTick a (fadeOut row)) ∧
    fading_in w1 handle a' ∧
    run [Elapse 100; TimerFires handle] w1 = Some w2 ∧
    audios w2 !! a = Some el ∧
    audios w2 !! a' =
      Some {| src := String c url; volume := 0.05%float; paused := false |}.
Proof.
  intros Hrow Ha Hel Hurl a' handle.
  assert (Hlt : a < a') by (eapply lookup_lt_Some; exact Hel).
  assert (Hr : r < length (rows w)) by (eapply lookup_lt_Some; exact Hrow).
  split; [lia|].
  eexists. eexists. split.
  { cbn [run step]. rewrite Hrow. cbn [mbind option_bind].
    rewrite (stop_session w r row a el Ha Hel). cbn [mbind option_bind rows].
    rewrite list_lookup_insert_eq by exact Hr. cbn [mbind option_bind].
    rewrite (play_session _ r
               {| track := track row; audio := None; fadeIn := fadeIn row;
                  fadeOut := Some (nextTimer w);
                  interactable := interactable row |} c url eq_refl Hurl).
    world_simpl.
    cbn [track audio fadeIn fadeOut interactable interactableNotified].
    reflexivity. }
  fold a' handle. world_simpl.
  split.
  { eexists. split;
      [apply list_lookup_insert_eq; rewrite length_insert; exact Hr | reflexivity]. }
  split; [reflexivity|].
  split. { rewrite lookup_app_l by exact Hlt. exact Hel. }
  assert (Hnew : (audios w ++ [{| src := String c url; volume := 0%float;
                                  paused := false |}]) !! a'
                 = Some {| src := String c url; volume := 0%float; paused := false |}).
  { rewrite lookup_app_r by reflexivity. unfold a'. rewrite Nat.sub_diag. reflexivity. }
  split; [exact Hnew|].
  split.
  { eexists. split;
      [rewrite lookup_insert_ne by (unfold handle; lia);
       rewrite lookup_insert_ne by lia; apply lookup_insert_eq | reflexivity]. }
  split. { eexists. eexists. split; [apply lookup_insert_eq | reflexivity]. }
  split.
  { cbn [run step]. change (0 <=? 100)%Z with true. world_simpl.
    unfold fire. world_simpl. rewrite lookup_insert_eq. world_simpl.
    rewrite Z.leb_refl. unfold run_handler. world_simpl. rewrite Hnew. world_simpl.
    change (volume {| src := String c url; volume := 0%float; paused := false |} <? 1)%float
      with true.
    cbv iota. world_simpl. rewrite lookup_insert_eq. reflexivity. }
  world_simpl. split.
  - rewrite list_lookup_insert_ne by lia. rewrite lookup_app_l by exact Hlt. exact Hel.
  - rewrite list_lookup_insert_eq by (rewrite length_app; cbn; lia). reflexivity.
Qed.

Lemma restart_while_fading_out_witness :
  let w := unwrap (run (onPlay 0 :: ticks 3 1) (init [a_mp3])) in
  let old := {| src := "http://x/a.mp3"; volume := 0.15%float; paused := false |} in
  1 ≠ 0 ∧
  ∃ w1 w2,
    run [onStop 0; onPlay 0] w = Some w1 ∧
    (∃ row', rows w1 !! 0 = Some row' ∧ audio row' = Some 1) ∧
    activeTrack (globalState w1) = "a"%string ∧
    audios w1 !! 0 = Some old ∧
    audios w1 !! 1 =
      Some {| src := "http://x/a.mp3"; volume := 0%float; paused := false |} ∧
    (∃ t, timers w1 !! 2 = Some t ∧ callback t = fadeOutTick 0 None) ∧
    fading_in w1 4 1 ∧
    run [Elapse 100; TimerFires 4] w1 = Some w2 ∧
    audios w2 !! 0 = Some old ∧
    audios w2 !! 1 =
      Some {| src := "http://x/a.mp3"; volume := 0.05%float; paused := false |}.
Proof.
  intros w old.
  exact (restart_while_fading_out w 0
           {| track := a_mp3; audio := Some 0; fadeIn := Some 1; fadeOut := None;
              interactable := false |}
           0 old "h"%char "ttp://x/a.mp3" eq_refl eq_refl eq_refl eq_refl).
Defined.

(** * Further properties *)

(** ** The playlist header and the navigation links *)

Lemma increment_None (n : string) (artists : list ArtistCount) :
  increment n artists = None ↔ n ∉ (name <$> artists).
Proof.
  induction artists as [|a rest IH]; cbn [increment].
  - split; [intros _; apply not_elem_of_nil | done].
  - rewrite fmap_cons, not_elem_of_cons.
    destruct (String.eqb_spec (name a) n) as [Heq|Hne].
    + split; [done | intros [Hn _]; congruence].
    + destruct (increment n rest) as [l|]; cbn.
      * split; [done|]. intros [_ Hn]. by apply IH in Hn.
      * split; [|done]. intros _. split; [congruence | by apply IH].
Qed.

Lemma tally_cons (n : string) (a : ArtistCount) (l : list ArtistCount) :
  tally n (a :: l) = (if decide (name a = n) then count a else 0) + tally n l.
Proof. unfold tally. rewrite filter_cons. by destruct (decide (name a = n)). Qed.

Lemma increment_Some (n : string) (artists artists' : list ArtistCount) :
  increment n artists = Some artists' →
  name <$> artists' = name <$> artists ∧
  ∀ m, tally m artists' = tally m artists + (if decide (m = n) then 1 else 0).
Proof.
  revert artists'. induction artists as [|a rest IH]; intros artists'; cbn [increment];
    [done|].
  destruct (String.eqb_spec (name a) n) as [Heq|Hne].
  - intros [= <-]. split; [done|]. intros m. rewrite !tally_cons. cbn [name count].
    subst n. destruct (decide (name a = m)) as [Hm|Hm].
    + rewrite decide_True by done. lia.
    + rewrite decide_False by congruence. lia.
  - destruct (increment n rest) as [l|]; [|done].
    cbn [fmap option_fmap option_map]. intros [= <-].
    destruct (IH l eq_refl) as [Hnames Htally]. split; [cbn; by f_equal|].
    intros m. rewrite !tally_cons, Htally.
    destruct (decide (name a = m)), (decide (m = n)); lia.
Qed.

Lemma tally_app (n : string) (l1 l2 : list ArtistCount) :
  tally n (l1 ++ l2) = tally n l1 + tally n l2.
Proof. unfold tally. by rewrite filter_app, fmap_app, sum_list_with_app. Qed.

(** What one visit does to a record without duplicates or empty names. *)
Lemma countArtist_spec (artists : list ArtistCount) (n : string) :
  NoDup (name <$> artists) → ("" ∉ name <$> artists) →
  NoDup (name <$> countArtist artists n) ∧
  ("" ∉ name <$> countArtist artists n) ∧
  (∀ m, m ∈ name <$> countArtist artists n ↔
        m ∈ name <$> artists ∨ (m = n ∧ n ≠ "")) ∧
  (∀ m, tally m (countArtist artists n)
        = tally m artists + (if decide (m = n ∧ n ≠ "") then 1 else 0)).
Proof.
  intros Hdup Hempty. unfold countArtist.
  destruct (increment n artists) as [l|] eqn:Hinc.
  - destruct (increment_Some _ _ _ Hinc) as [Hnames Htally]. rewrite Hnames.
    assert (Hin : n ∈ name <$> artists).
    { destruct (decide (n ∈ name <$> artists)) as [|Hn]; [done|].
      apply increment_None in Hn. congruence. }
    assert (Hn : n ≠ "") by (intros ->; done).
    repeat split; try done.
    + by left.
    + intros [|[-> _]]; done.
    + intros m. rewrite Htally. destruct (decide (m = n)) as [->|].
      * by rewrite decide_True.
      * rewrite decide_False; [done | intros [? _]; done].
  - apply increment_None in Hinc.
    destruct n as [|c n]; cbn [JS.truthy].
    + repeat split; try done.
      * by left.
      * intros [|[_ ?]]; done.
      * intros m. rewrite decide_False; [lia | intros [_ ?]; done].
    + rewrite fmap_app. cbn [fmap list_fmap name]. repeat split.
      * apply NoDup_app. repeat split; [done | | apply NoDup_singleton].
        intros m Hm Hm'. apply list_elem_of_singleton in Hm'. by subst.
      * rewrite elem_of_app, list_elem_of_singleton. intros [|]; done.
      * rewrite elem_of_app, list_elem_of_singleton. intros [?| ->]; [by left | by right].
      * rewrite elem_of_app, list_elem_of_singleton. intros [|[-> _]]; [by left | by right].
      * intros m. rewrite tally_app. f_equal. unfold tally. rewrite filter_cons. cbn [name].
        destruct (decide (String c n = m)) as [<-|Hne].
        -- by rewrite decide_True.
        -- rewrite decide_False; [done | intros [? _]; done].
Qed.

(** The record after a run of visits. *)
Lemma visits_spec (names : list string) (artists : list ArtistCount) :
  NoDup (name <$> artists) → ("" ∉ name <$> artists) →
  NoDup (name <$> fold_left countArtist names artists) ∧
  ("" ∉ name <$> fold_left countArtist names artists) ∧
  (∀ m, m ∈ name <$> fold_left countArtist names artists ↔
        m ∈ name <$> artists ∨ (m ∈ names ∧ m ≠ "")) ∧
  (∀ m, m ≠ "" → tally m (fold_left countArtist names artists)
        = tally m artists + length (filter (λ n, n = m) names)).
Proof.
  revert artists. induction names as [|n names IH]; intros artists Hdup Hempty;
    cbn [fold_left].
  - repeat split; try done.
    + by left.
    + intros [|[Hm _]]; [done | by apply elem_of_nil in Hm].
  - destruct (countArtist_spec artists n Hdup Hempty) as (Hdup1 & Hempty1 & Hin1 & Htally1).
    destruct (IH _ Hdup1 Hempty1) as (Hdup2 & Hempty2 & Hin2 & Htally2).
    repeat split; try done.
    + intros Hm. apply Hin2 in Hm as [Hm|[Hm Hne]].
      * apply Hin1 in Hm as [Hm|[-> Hne]]; [by left|]. right. split; [left|done].
      * right. split; [by right | done].
    + intros [Hm|[Hm Hne]]; apply Hin2.
      * left. apply Hin1. by left.
      * apply elem_of_cons in Hm as [->|Hm]; [|by right].
        left. apply Hin1. by right.
    + intros m Hm. rewrite (Htally2 m Hm), Htally1, filter_cons.
      destruct (decide (n = m)) as [->|Hne].
      * rewrite decide_True by done. cbn [length]. lia.
      * rewrite decide_False by (intros [? _]; congruence). lia.
Qed.

Lemma getArtists_fold (tracks : list (list string)) (artists : list ArtistCount) :
  fold_left (λ artists track, fold_left countArtist track artists) tracks artists
  = fold_left countArtist (concat tracks) artists.
Proof.
  revert artists. induction tracks as [|t tracks IH]; intros artists; cbn [fold_left concat];
    [done|].
  by rewrite IH, fold_left_app.
Qed.

Lemma getArtists_spec (tracks : list (list string)) :
  NoDup (name <$> getArtists tracks) ∧
  (∀ m, m ∈ name <$> getArtists tracks ↔ m ∈ concat tracks ∧ m ≠ "") ∧
  (∀ m, m ≠ "" → tally m (getArtists tracks) = length (filter (λ n, n = m) (concat tracks))).
Proof.
  unfold getArtists. rewrite getArtists_fold.
  destruct (visits_spec (concat tracks) [] (NoDup_nil_2) (not_elem_of_nil _))
    as (Hdup & Hempty & Hin & Htally).
  split; [done|]. split.
  - intros m. rewrite Hin. split; [intros [Hm|]; [by apply elem_of_nil in Hm | done] | by right].
  - intros m Hm. by rewrite Htally.
Qed.

Lemma tally_absent (n : string) (artists : list ArtistCount) :
  n ∉ name <$> artists → tally n artists = 0.
Proof.
  induction artists as [|a rest IH]; [done|].
  rewrite fmap_cons, not_elem_of_cons, tally_cons. intros [Hne Hn].
  rewrite decide_False by congruence. by rewrite IH.
Qed.

(** With distinct names, the tally of a name is the count of its entry. *)
Lemma tally_NoDup (artists : list ArtistCount) (a : ArtistCount) :
  NoDup (name <$> artists) → a ∈ artists → tally (name a) artists = count a.
Proof.
  induction artists as [|b rest IH]; intros Hdup Ha; [by apply elem_of_nil in Ha|].
  rewrite fmap_cons in Hdup. apply NoDup_cons in Hdup as [Hb Hdup].
  rewrite tally_cons. apply elem_of_cons in Ha as [->|Ha].
  - rewrite decide_True by done. rewrite tally_absent by done. lia.
  - rewrite decide_False; [by rewrite IH|].
    intros Heq. apply Hb. rewrite Heq. by apply list_elem_of_fmap_2.
Qed.

(** X1: the record [getArtists] returns has one entry per artist name
    that occurs on some track and is not empty: no name twice, no empty
    name, no name that does not occur. *)
Theorem getArtists_names (tracks : list (list string)) :
  NoDup (name <$> getArtists tracks) ∧
  ∀ n, n ∈ name <$> getArtists tracks ↔ n ∈ concat tracks ∧ n ≠ "".
Proof. destruct (getArtists_spec tracks) as (? & ? & _). done. Qed.

(** X2: the count of an entry is the number of times its name occurs on
    the tracks, over all tracks. *)
Theorem getArtists_counts (tracks : list (list string)) (a : ArtistCount) :
  a ∈ getArtists tracks →
  count a = length (filter (λ n, n = name a) (concat tracks)) ∧ 0 < count a.
Proof.
  intros Ha. destruct (getArtists_spec tracks) as (Hdup & Hin & Htally).
  assert (Hname : name a ∈ concat tracks ∧ name a ≠ "").
  { apply Hin. by apply list_elem_of_fmap_2. }
  destruct Hname as [Hocc Hne].
  assert (Hcount : count a = length (filter (λ n, n = name a) (concat tracks))).
  { rewrite <- (Htally _ Hne). symmetry. by apply tally_NoDup. }
  split; [done|]. rewrite Hcount.
  assert (Hf : name a ∈ filter (λ n, n = name a) (concat tracks))
    by (by apply list_elem_of_filter).
  destruct (filter (λ n, n = name a) (concat tracks)); [by apply elem_of_nil in Hf|].
  cbn. lia.
Qed.

Lemma getArtists_counts_witness :
  let a := {| name := "b"; count := 3 |} in
  count a = length (filter (λ n, n = name a)
                      (concat [["a"; "b"]; ["b"; ""; "c"; "a"; "b"]])) ∧
  0 < count a.
Proof.
  intros a. apply (getArtists_counts [["a"; "b"]; ["b"; ""; "c"; "a"; "b"]] a).
  vm_compute. apply list_elem_of_In. right. left. reflexivity.
Defined.

(** X3: [uniqueArtists], the size of the set of names, is the number of
    entries of the record: the set removes nothing. *)
Theorem uniqueArtists_length (tracks : list (list string)) :
  uniqueArtists (getArtists tracks) = length (getArtists tracks).
Proof.
  unfold uniqueArtists. rewrite size_list_to_set, length_fmap; [done|].
  apply getArtists_spec.
Qed.

Lemma increment_total (n : string) (artists artists' : list ArtistCount) :
  increment n artists = Some artists' →
  sum_list (count <$> artists') = S (sum_list (count <$> artists)).
Proof.
  revert artists'. induction artists as [|a rest IH]; intros artists'; cbn [increment];
    [done|].
  destruct (String.eqb (name a) n).
  - by intros [= <-].
  - destruct (increment n rest) as [l|]; [|done].
    cbn [fmap option_fmap option_map]. intros [= <-].
    rewrite !fmap_cons. cbn [sum_list_with]. rewrite (IH l eq_refl). unfold id. lia.
Qed.

Lemma visits_total (names : list string) (artists : list ArtistCount) :
  ("" ∉ name <$> artists) →
  sum_list (count <$> fold_left countArtist names artists)
  = sum_list (count <$> artists) + length (filter (λ n, n ≠ "") names).
Proof.
  revert artists. induction names as [|n names IH]; intros artists Hempty;
    cbn [fold_left]; [cbn; lia|].
  rewrite filter_cons. unfold countArtist at 2.
  destruct (increment n artists) as [l|] eqn:Hinc.
  - destruct (increment_Some _ _ _ Hinc) as [Hnames _].
    assert (Hn : n ≠ "").
    { intros ->. assert (Hin : "" ∈ name <$> artists); [|done].
      destruct (decide ("" ∈ name <$> artists)) as [|Hnot]; [done|].
      apply increment_None in Hnot. congruence. }
    rewrite IH by (by rewrite Hnames). rewrite (increment_total _ _ _ Hinc).
    rewrite decide_True by done. cbn [length]. lia.
  - destruct n as [|c n]; cbn [JS.truthy].
    + rewrite IH by done. rewrite decide_False by (intros H; by apply H). lia.
    + rewrite IH.
      * rewrite decide_True by done. rewrite fmap_app, sum_list_with_app. cbn. lia.
      * rewrite fmap_app, elem_of_app. cbn [fmap list_fmap name].
        rewrite list_elem_of_singleton. intros [|]; done.
Qed.

(** X4: the counts add up to the number of artist credits with a name
    that is not empty; a credit with an empty name is counted nowhere. *)
Theorem getArtists_total (tracks : list (list string)) :
  sum_list (count <$> getArtists tracks)
  = length (filter (λ n, n ≠ "") (concat tracks)).
Proof.
  unfold getArtists. rewrite getArtists_fold, visits_total; [done|].
  apply not_elem_of_nil.
Qed.

(** X5: whatever order the host's sort leaves the record in, as long as
    it only reorders it, [getTopArtists] of the record of a playlist
    returns five names, or all of them if there are fewer; each is the
    name of an artist of the playlist, and none comes twice. *)
Theorem getTopArtists_names
    (sort : (ArtistCount → ArtistCount → Z) → list ArtistCount → list ArtistCount)
    (tracks : list (list string)) :
  (∀ cmp l, sort cmp l ≡ₚ l) →
  let top := getTopArtists sort (getArtists tracks) in
  length top = Nat.min 5 (length (getArtists tracks)) ∧
  NoDup top ∧
  ∀ n, n ∈ top → n ∈ concat tracks ∧ n ≠ "".
Proof.
  intros Hsort top. unfold top, getTopArtists.
  destruct (getArtists_spec tracks) as (Hdup & Hin & _).
  pose proof (Hsort byCount (getArtists tracks)) as Hperm.
  assert (Hsub : name <$> take 5 (sort byCount (getArtists tracks))
                 `sublist_of` name <$> sort byCount (getArtists tracks)).
  { apply fmap_sublist, sublist_take. }
  assert (Hnames : name <$> sort byCount (getArtists tracks) ≡ₚ name <$> getArtists tracks)
    by (by rewrite Hperm).
  split; [|split].
  - by rewrite length_fmap, length_take, Hperm.
  - eapply sublist_NoDup; [|exact Hsub]. by rewrite Hnames.
  - intros n Hn. apply Hin. rewrite <- Hnames. eapply elem_of_sublist; [exact Hn | exact Hsub].
Qed.

Lemma getTopArtists_names_witness :
  let tracks := [["a"; "b"]; ["b"; ""; "c"; "a"; "b"]] in
  let top := getTopArtists mergeSort (getArtists tracks) in
  length top = Nat.min 5 (length (getArtists tracks)) ∧
  NoDup top ∧
  ∀ n, n ∈ top → n ∈ concat tracks ∧ n ≠ "".
Proof.
  intros tracks. apply (getTopArtists_names mergeSort tracks).
  intros cmp l. apply merge_sort_Permutation.
Defined.

Example getTopArtists_sample :
  getTopArtists mergeSort (getArtists [["a"; "b"]; ["b"; ""; "c"; "a"; "b"]])
  = ["b"; "a"; "c"].
Proof. vm_compute. reflexivity. Qed.

Lemma endsWith_append (d suffix : string) :
  endsWith (String.append d suffix) suffix = true.
Proof.
  induction d as [|c d IH].
  - change (String.append "" suffix) with suffix.
    destruct suffix as [|a suffix]; [reflexivity|].
    cbn [endsWith]. by rewrite String.eqb_refl.
  - change (String.append (String c d) suffix) with (String c (String.append d suffix)).
    cbn [endsWith]. by rewrite IH, orb_true_r.
Qed.

(** X6: the description shown always ends with a full stop; a
    description that already does is shown as it is, and otherwise one
    full stop is added. Applying the rule again changes nothing. *)
Theorem description_full_stop (d : string) :
  endsWith (description d) "." = true ∧
  (endsWith d "." = true → description d = d) ∧
  (endsWith d "." = false → description d = String.append d ".") ∧
  description (description d) = description d.
Proof.
  unfold description at 1 2 3.
  destruct (endsWith d ".") eqn:Hd.
  - repeat split; try done. unfold description. by rewrite Hd, Hd.
  - repeat split; try done; [apply endsWith_append|].
    unfold description. rewrite Hd. by rewrite endsWith_append.
Qed.

Lemma prefix_refl_append (href rest : string) :
  String.prefix href (String.append href rest) = true.
Proof.
  induction href as [|c href IH]; [by destruct rest|].
  change (String.append (String c href) rest) with (String c (String.append href rest)).
  cbn [String.prefix]. destruct (ascii_dec c c); [done | congruence].
Qed.

Lemma prefix_split (href pathname : string) :
  String.prefix href pathname = true → ∃ rest, pathname = String.append href rest.
Proof.
  revert pathname. induction href as [|c href IH]; intros [|c' p]; cbn [String.prefix];
    try done.
  - by exists "".
  - by exists (String c' p).
  - destruct (ascii_dec c c') as [->|]; [|done].
    intros [rest ->]%IH. by exists rest.
Qed.

Lemma prefix_comparable (h1 h2 pathname : string) :
  String.prefix h1 pathname = true → String.prefix h2 pathname = true →
  String.prefix h1 h2 = true ∨ String.prefix h2 h1 = true.
Proof.
  revert h1 h2. induction pathname as [|c p IH]; intros [|c1 h1] [|c2 h2];
    cbn [String.prefix]; try done; try (by left); try (by right).
  destruct (ascii_dec c1 c) as [->|]; [|done].
  destruct (ascii_dec c2 c) as [->|]; [|done].
  destruct (ascii_dec c c); [|congruence]. apply IH.
Qed.

(** X7: the link to the root is active on the root page only. Any other
    link is active exactly on the paths that begin with its href: on its
    own page, on every page nested under it, and on any other path that
    merely continues the same characters. *)
Theorem active_paths (href pathname : string) :
  (active "/" pathname = true ↔ pathname = "/") ∧
  (href ≠ "/" →
   (active href pathname = true ↔ ∃ rest, pathname = String.append href rest)).
Proof.
  split.
  - unfold active. cbn [String.eqb Ascii.eqb Bool.eqb]. cbn.
    split; [by intros ?%String.eqb_eq | intros ->; done].
  - intros Hne. unfold active.
    destruct (String.eqb_spec href "/") as [|_]; [done|].
    split; [apply prefix_split | intros [rest ->]; apply prefix_refl_append].
Qed.

Lemma active_paths_witness :
  (active "/" "/blog" = true ↔ "/blog" = "/") ∧
  (active "/blog" "/blog/post" = true ↔
   ∃ rest, "/blog/post" = String.append "/blog" rest).
Proof.
  split; [apply (active_paths "/blog" "/blog") | apply (active_paths "/blog" "/blog/post")];
    discriminate.
Defined.

(** X8: on any page, two links other than the root link that are both
    active have hrefs one of which begins with the other: links to
    unrelated sections are never highlighted together. *)
Theorem active_links_nested (h1 h2 pathname : string) :
  h1 ≠ "/" → h2 ≠ "/" →
  active h1 pathname = true → active h2 pathname = true →
  String.prefix h1 h2 = true ∨ String.prefix h2 h1 = true.
Proof.
  intros H1 H2. unfold active.
  destruct (String.eqb_spec h1 "/") as [|_]; [done|].
  destruct (String.eqb_spec h2 "/") as [|_]; [done|].
  apply prefix_comparable.
Qed.

Lemma active_links_nested_witness :
  String.prefix "/blog" "/blog/2022" = true ∨ String.prefix "/blog/2022" "/blog" = true.
Proof.
  apply (active_links_nested "/blog" "/blog/2022" "/blog/2022/post");
    [discriminate | discriminate | reflexivity | reflexivity].
Defined.

(** ** The running page *)

Lemma handled_frame (h : TimerHandler) (l l' : list HTMLAudioElement) :
  handled h l = Some l' →
  length l' = length l ∧
  ∀ a el, l !! a = Some el →
    ∃ el', l' !! a = Some el' ∧ src el' = src el ∧
           (paused el = true → paused el' = true).
Proof.
  assert (Hset : ∀ i el0 el1, l !! i = Some el0 → src el1 = src el0 →
            (paused el0 = true → paused el1 = true) →
            length (<[i := el1]> l) = length l ∧
            ∀ a el, l !! a = Some el →
              ∃ el', <[i := el1]> l !! a = Some el' ∧ src el' = src el ∧
                     (paused el = true → paused el' = true)).
  { intros i el0 el1 Hi Hsrc Hp. split; [apply length_insert|].
    intros a el Ha. destruct (decide (i = a)) as [->|Hne].
    - rewrite list_lookup_insert_eq by (eapply lookup_lt_Some; exact Ha).
      assert (el0 = el) as -> by congruence. eauto.
    - rewrite list_lookup_insert_ne by done. eauto. }
  assert (Hvol : ∀ v el, src (set_volume v el) = src el ∧
                         paused (set_volume v el) = paused el).
  { intros v el. unfold set_volume. by destruct (_ && _)%bool. }
  destruct h as [a fi|a fo|a]; cbn [handled];
    destruct (l !! a) as [el|] eqn:Ha; cbn [mbind option_bind]; try done;
    intros [= <-].
  - destruct (volume el <? 1)%float; [|by eauto].
    destruct (Hvol (JS.Number_toFixed2 (volume el + 0.05)%float) el) as [Hs Hp].
    apply (Hset a el); [done | exact Hs | by rewrite <- Hp].
  - destruct (0 <? volume el)%float; [|by eauto].
    destruct (Hvol (JS.Number_toFixed2 (volume el - 0.05)%float) el) as [Hs Hp].
    apply (Hset a el); [done | exact Hs | by rewrite <- Hp].
  - by apply (Hset a el).
Qed.

Lemma step_elements (e : Event) (w w' : World) :
  step e w = Some w' →
  length (audios w) ≤ length (audios w') ∧
  ∀ a el, audios w !! a = Some el →
    ∃ el', audios w' !! a = Some el' ∧ src el' = src el ∧
           (paused el = true → paused el' = true).
Proof.
  intros Hstep.
  destruct (step_audios e w w' Hstep) as [-> | [(url & ->) | (h & t & _ & _ & Hh)]].
  - split; [done | eauto].
  - split; [rewrite length_app; lia|]. intros a el Ha. exists el.
    by rewrite lookup_app_l by (eapply lookup_lt_Some; exact Ha).
  - destruct (handled_frame _ _ _ Hh) as [Hlen Hel]. split; [lia | done].
Qed.

Lemma init_handles_sound (tracks : list SpotifyTrack) : handles_sound (init tracks).
Proof.
  split.
  - intros r row a Hrow Ha. cbn [init rows] in Hrow. rewrite list_lookup_fmap in Hrow.
    destruct (tracks !! r); [|done]. by injection Hrow as <-.
  - intros h t Ht. cbn in Ht. by rewrite lookup_empty in Ht.
Qed.

Lemma step_handles_sound (e : Event) (w w' : World) :
  handles_sound w → step e w = Some w' → handles_sound w'.
Proof.
  intros [Hrows Htimers] Hstep.
  destruct (step_elements e w w' Hstep) as [Hlen Hel].
  assert (Hkeep : ∀ row a, (∃ el, audios w !! a = Some el ∧
                     preview_url (track row) = Some (src el) ∧
                     JS.truthy (Some (src el)) = true) →
                   ∃ el, audios w' !! a = Some el ∧
                     preview_url (track row) = Some (src el) ∧
                     JS.truthy (Some (src el)) = true).
  { intros row a (el & Ha & Hurl & Htr). destruct (Hel a el Ha) as (el' & Ha' & Hs & _).
    exists el'. by rewrite Hs. }
  revert Hstep. destruct e as [r|r|ms|handle|p|p error]; cbn [step].
  - destruct (rows w !! r) as [row|] eqn:Hrow; [|done].
    cbn [mbind option_bind]. intros [= Hw'].
    destruct (play_cases w r row) as [Hsame | (Ha & c & url & Hurl)].
    { rewrite Hsame in Hw'. by subst w'. }
    rewrite (play_session w r row c url Ha Hurl) in Hw'. subst w'.
    pose proof (lookup_lt_Some _ _ _ Hrow) as Hr. split; world_simpl.
    + intros r0 row0 a0 Hr0 Ha0. destruct (decide (r = r0)) as [<-|Hne].
      * rewrite list_lookup_insert_eq in Hr0 by done. injection Hr0 as <-.
        cbn [audio track] in *. injection Ha0 as <-.
        eexists. split; [by rewrite lookup_app_r, Nat.sub_diag|]. done.
      * rewrite list_lookup_insert_ne in Hr0 by done.
        destruct (Hrows r0 row0 a0 Hr0 Ha0) as (el & Hel0 & ?).
        exists el. split; [|done].
        by rewrite lookup_app_l by (eapply lookup_lt_Some; exact Hel0).
    + intros h t Ht. rewrite length_app. cbn [length].
      destruct (decide (nextTimer w = h)) as [<-|Hne].
      * rewrite lookup_insert_eq in Ht. injection Ht as <-. cbn. lia.
      * rewrite lookup_insert_ne in Ht by done. specialize (Htimers h t Ht). lia.
  - destruct (rows w !! r) as [row|] eqn:Hrow; [|done].
    cbn [mbind option_bind]. intros Hstop.
    destruct (stop_cases _ _ _ _ Hstop) as [[_ ->] | (a & el & Ha & Hela)]; [done|].
    rewrite (stop_session w r row a el Ha Hela) in Hstop. injection Hstop as <-.
    pose proof (lookup_lt_Some _ _ _ Hrow) as Hr.
    pose proof (lookup_lt_Some _ _ _ Hela) as Hlt. split; world_simpl.
    + intros r0 row0 a0 Hr0 Ha0. destruct (decide (r = r0)) as [<-|Hne].
      * rewrite list_lookup_insert_eq in Hr0 by done. by injection Hr0 as <-.
      * rewrite list_lookup_insert_ne in Hr0 by done. eauto.
    + intros h t Ht.
      destruct (decide (S (nextTimer w) = h)) as [<-|Hne1].
      { rewrite lookup_insert_eq in Ht. by injection Ht as <-. }
      rewrite lookup_insert_ne in Ht by done.
      destruct (decide (nextTimer w = h)) as [<-|Hne2].
      { rewrite lookup_insert_eq in Ht. by injection Ht as <-. }
      rewrite lookup_insert_ne in Ht by done.
      apply cleared_lookup in Ht as [Ht _]. eauto.
  - destruct (0 <=? ms)%Z; [|done]. by intros [= <-].
  - intros Hfire. apply fire_frame in Hfire as (Hr & _ & Hsub). split.
    + rewrite Hr. intros r0 row0 a0 Hr0 Ha0. apply Hkeep. eauto.
    + intros h t Ht. apply Hsub in Ht as (t0 & Ht0 & <-).
      specialize (Htimers h t0 Ht0). lia.
  - destruct (promises w !! p) as [pr|]; [|done]. cbn [mbind option_bind].
    destruct (settled pr); [done|]. intros [= Hw'].
    destruct (onFulfilled_frame pr (settle p pr w)) as (Ht & _ & Hr).
    rewrite Hw' in Ht, Hr. split.
    + rewrite Hr. intros r0 row' a0 Hr0 Ha0.
      assert (Hrow0 : ∃ row0, rows w !! r0 = Some row0 ∧ track row0 = track row' ∧
                              audio row0 = audio row').
      { destruct (rows w !! r0) as [row0|] eqn:Hr0w.
        - destruct (setInteractable_rows (owner pr) true (settle p pr w) r0 row0 Hr0w)
            as (row1 & Hr1 & Htr & Hau & _).
          assert (row1 = row') as -> by congruence. eauto.
        - exfalso. apply lookup_ge_None in Hr0w. apply lookup_lt_Some in Hr0.
          assert (Hlenr : length (rows (setInteractable (owner pr) true (settle p pr w)))
                          = length (rows w)).
          { unfold setInteractable. destruct (rows (settle p pr w) !! owner pr); [|done].
            world_simpl. apply length_insert. }
          lia. }
      destruct Hrow0 as (row0 & Hr0w & Htr & Hau).
      rewrite <- Htr. apply Hkeep. eapply Hrows; [exact Hr0w | congruence].
    + rewrite Ht. intros h t Hh. specialize (Htimers h t Hh). lia.
  - destruct (promises w !! p) as [pr|]; [|done]. cbn [mbind option_bind].
    destruct (settled pr); [done|]. intros [= Hw'].
    destruct (onRejected_frame pr error (settle p pr w)) as (Ht & _ & Hr).
    rewrite Hw' in Ht, Hr. split.
    + rewrite Hr. intros r0 row0 a0 Hr0 Ha0. apply Hkeep. eauto.
    + rewrite Ht. intros h t Hh. specialize (Htimers h t Hh). lia.
Qed.

Lemma run_elements (es : list Event) (w w' : World) (a : nat) (el : HTMLAudioElement) :
  run es w = Some w' → audios w !! a = Some el →
  ∃ el', audios w' !! a = Some el' ∧ src el' = src el ∧
         (paused el = true → paused el' = true).
Proof.
  revert w el. induction es as [|e es IH]; intros w el; cbn [run].
  - intros [= <-] Ha. eauto.
  - destruct (step e w) as [w1|] eqn:He; [|done]. cbn [mbind option_bind].
    intros Hrun Ha. destruct (step_elements e w w1 He) as [_ Hel].
    destruct (Hel a el Ha) as (el1 & Ha1 & Hs1 & Hp1).
    destruct (IH w1 el1 Hrun Ha1) as (el' & Ha' & Hs' & Hp').
    exists el'. split; [done|]. split; [congruence | auto].
Qed.

(** X9: in every world reached from the initial one, the handlers never
    meet a dangling handle: [stop] on any row runs to its end, and every
    registered timer that is due runs its callback on an element that
    exists. *)
Theorem handlers_never_stuck (tracks : list SpotifyTrack) (es : list Event) (w : World) :
  run es (init tracks) = Some w →
  (∀ r, r < length (rows w) → is_Some (step (onStop r) w)) ∧
  (∀ h t, timers w !! h = Some t → (due t <= clock w)%Z →
          is_Some (step (TimerFires h) w)).
Proof.
  intros Hrun.
  destruct (run_invariant handles_sound step_handles_sound es _ _
              (init_handles_sound tracks) Hrun) as [Hrows Htimers].
  split.
  - intros r Hr. apply lookup_lt_is_Some in Hr as [row Hrow].
    cbn [step]. rewrite Hrow. cbn [mbind option_bind]. unfold stop.
    destruct (audio row) as [a|] eqn:Ha; [|done].
    destruct (Hrows r row a Hrow Ha) as (el & Hel & _). by rewrite Hel.
  - intros h t Ht Hdue. cbn [step]. unfold fire. rewrite Ht. cbn [mbind option_bind].
    destruct (Z.leb_spec (due t) (clock w)); [|lia].
    assert (Hh : ∀ w0, audios w0 = audios w → is_Some (run_handler (callback t) w0)).
    { intros w0 Hw0. specialize (Htimers h t Ht).
      apply lookup_lt_is_Some in Htimers as [el Hel].
      destruct (callback t) as [a fi|a fo|a]; cbn [run_handler target] in *;
        rewrite Hw0, Hel; cbn [mbind option_bind]; [| |done].
      - by destruct (volume el <? 1)%float.
      - by destruct (0 <? volume el)%float. }
    destruct (repeating t).
    + destruct (Hh w eq_refl) as [w1 Hw1]. rewrite Hw1. cbn [mbind option_bind].
      by destruct (timers w1 !! h).
    + by apply Hh.
Qed.

Lemma handlers_never_stuck_witness :
  let w := unwrap (run (onPlay 0 :: ticks 2 1 ++ [onStop 0; Elapse 200])
                       (init [a_mp3; b_mp3])) in
  (∀ r, r < length (rows w) → is_Some (step (onStop r) w)) ∧
  (∀ h t, timers w !! h = Some t → (due t <= clock w)%Z →
          is_Some (step (TimerFires h) w)).
Proof.
  intros w.
  refine (handlers_never_stuck [a_mp3; b_mp3]
            (onPlay 0 :: ticks 2 1 ++ [onStop 0; Elapse 200]) w _).
  vm_compute. reflexivity.
Defined.

(** X10: in every world reached from the initial one, a row that holds a
    session has a track with a preview URL, and its element is one that
    was created from that URL: a session never plays another track's
    preview, and its progress bar is rendered at full width. *)
Theorem session_plays_own_preview (tracks : list SpotifyTrack) (es : list Event)
    (w : World) (r : nat) (row : TrackRow) (a : nat) :
  run es (init tracks) = Some w →
  rows w !! r = Some row → audio row = Some a →
  (∃ el, audios w !! a = Some el ∧ preview_url (track row) = Some (src el)) ∧
  progressBar row = Some "w-full transition-all duration-[30s] ease-linear".
Proof.
  intros Hrun Hrow Ha.
  destruct (run_invariant handles_sound step_handles_sound es _ _
              (init_handles_sound tracks) Hrun) as [Hrows _].
  destruct (Hrows r row a Hrow Ha) as (el & Hel & Hurl & Htr).
  split; [eauto|]. unfold progressBar. by rewrite Hurl, Htr, Ha.
Qed.

Lemma session_plays_own_preview_witness :
  let w := unwrap (run [onPlay 1; onPlay 0; onStop 1] (init [a_mp3; b_mp3])) in
  let row := {| track := a_mp3; audio := Some 1; fadeIn := Some 2; fadeOut := None;
                interactable := false |} in
  (∃ el, audios w !! 1 = Some el ∧ preview_url (track row) = Some (src el)) ∧
  progressBar row = Some "w-full transition-all duration-[30s] ease-linear".
Proof.
  intros w row.
  refine (session_plays_own_preview [a_mp3; b_mp3] [onPlay 1; onPlay 0; onStop 1]
            w 0 row 1 _ _ _); vm_compute; reflexivity.
Defined.

(** X11: no event resumes an element or changes its source: once the
    deferred pause has run, the element stays paused, whatever happens
    next. *)
Theorem paused_for_good (es : list Event) (w w' : World) (a : nat)
    (el : HTMLAudioElement) :
  run es w = Some w' → audios w !! a = Some el → paused el = true →
  ∃ el', audios w' !! a = Some el' ∧ src el' = src el ∧ paused el' = true.
Proof.
  intros Hrun Ha Hp.
  destruct (run_elements es w w' a el Hrun Ha) as (el' & Ha' & Hs & Hp'). eauto.
Qed.

Lemma paused_for_good_witness :
  let w := unwrap (run [onPlay 0; onStop 0; Elapse 0; TimerFires 3] (init [a_mp3])) in
  let w' := unwrap (run ([onPlay 0; PlayResolves 0] ++ ticks 3 2) w) in
  ∃ el', audios w' !! 0 = Some el' ∧ src el' = "http://x/a.mp3" ∧ paused el' = true.
Proof.
  intros w w'.
  refine (paused_for_good ([onPlay 0; PlayResolves 0] ++ ticks 3 2) w w' 0
            {| src := "http://x/a.mp3"; volume := 0%float; paused := true |} _ _ _);
    vm_compute; reflexivity.
Defined.

(** X12: in every world reached from the initial one, the volume of every
    element is one of the 21 doubles nearest to 0, 0.05, ..., 1: the
    rounding to two decimals never drifts, the volume never leaves the
    range the setter accepts, and both ends are met exactly. *)
Theorem volume_on_ladder (tracks : list SpotifyTrack) (es : list Event) (w : World)
    (a : nat) (el : HTMLAudioElement) :
  run es (init tracks) = Some w → audios w !! a = Some el →
  ∃ k, k ≤ 20 ∧ volume el = level k ∧
       (0 <=? volume el)%float = true ∧ (volume el <=? 1)%float = true ∧
       ((volume el <? 1)%float = false → volume el = 1%float) ∧
       ((0 <? volume el)%float = false → volume el = 0%float).
Proof.
  intros Hrun Ha. destruct (reachable_ladder tracks es w Hrun a el Ha) as (k & Hk & Hv).
  exists k. rewrite Hv. split; [done|]. split; [done|].
  pose proof (level_in_range k Hk) as Hr. apply andb_true_iff in Hr as [H0 H1].
  split; [done|]. split; [done|]. split.
  - rewrite level_below_ceiling by done. intros Hlt. apply Nat.ltb_ge in Hlt.
    by replace k with 20 by lia.
  - rewrite level_above_floor by done. intros Hlt. apply Nat.ltb_ge in Hlt.
    by replace k with 0 by lia.
Qed.

Lemma volume_on_ladder_witness :
  let w := unwrap (run (onPlay 0 :: ticks 7 1 ++ [onStop 0] ++ ticks 2 2) (init [a_mp3])) in
  ∃ k, k ≤ 20 ∧ (0.25)%float = level k ∧
       (0 <=? 0.25)%float = true ∧ (0.25 <=? 1)%float = true ∧
       ((0.25 <? 1)%float = false → 0.25%float = 1%float) ∧
       ((0 <? 0.25)%float = false → 0.25%float = 0%float).
Proof.
  intros w.
  refine (volume_on_ladder [a_mp3] (onPlay 0 :: ticks 7 1 ++ [onStop 0] ++ ticks 2 2) w 0
            {| src := "http://x/a.mp3"; volume := 0.25%float; paused := false |} _ _);
    vm_compute; reflexivity.
Defined.

(** X13: a rejection whose message is neither the missing-interaction
    one nor the interruption one is shown as an error toast carrying the
    message, and that is all: the row keeps its session, its fade-in
    interval stays registered and the marker stays. *)
Theorem other_rejection_surfaced (w : World) (p : nat) (pr : PlayPromise)
    (error : Rejection) :
  promises w !! p = Some pr → settled pr = false →
  JS.includes (message_of error) no_interaction = false →
  JS.includes (message_of error) interrupted = false →
  ∃ w', step (PlayRejects p error) w = Some w' ∧
    toasts w' = toasts w ++ [toast_error (message_of error)] ∧
    rows w' = rows w ∧ timers w' = timers w ∧ audios w' = audios w ∧
    globalState w' = globalState w.
Proof.
  intros Hp Hpending Hno Hint. eexists. split.
  { cbn [step]. rewrite Hp. cbn [mbind option_bind]. rewrite Hpending. reflexivity. }
  unfold onRejected. rewrite Hno, Hint. cbn [negb]. repeat split.
Qed.

Lemma other_rejection_surfaced_witness :
  let w := unwrap (run [onPlay 0] (init [a_mp3])) in
  let error := StringValue "NotSupportedError: no supported source was found" in
  ∃ w', step (PlayRejects 0 error) w = Some w' ∧
    toasts w' = toasts w ++ [toast_error (message_of error)] ∧
    rows w' = rows w ∧ timers w' = timers w ∧ audios w' = audios w ∧
    globalState w' = globalState w.
Proof.
  intros w error.
  apply (other_rejection_surfaced w 0
           {| owner := 0; element := 0; notified := false; settled := false |} error);
    reflexivity.
Defined.

(** X14: a rejection whose message is the missing-interaction one never
    shows an error toast and touches no row, timer or element. If the
    request was made with the advisory flag unset it shows the advisory
    and sets the flag; if it was made with the flag set it does nothing.
    So when the flag has not changed since the request was made, the flag
    is set afterwards and the advisory has been shown only if it was
    unset. *)
Theorem missing_interaction_advisory (w : World) (p : nat) (pr : PlayPromise)
    (error : Rejection) :
  promises w !! p = Some pr → settled pr = false →
  JS.includes (message_of error) no_interaction = true →
  ∃ w', step (PlayRejects p error) w = Some w' ∧
    rows w' = rows w ∧ timers w' = timers w ∧ audios w' = audios w ∧
    activeTrack (globalState w') = activeTrack (globalState w) ∧
    toasts w' = (if notified pr then toasts w else toasts w ++ [toast advisory]) ∧
    interactableNotified (globalState w')
    = (if notified pr then interactableNotified (globalState w) else true) ∧
    (notified pr = interactableNotified (globalState w) →
     interactableNotified (globalState w') = true).
Proof.
  intros Hp Hpending Hno. eexists. split.
  { cbn [step]. rewrite Hp. cbn [mbind option_bind]. rewrite Hpending. reflexivity. }
  unfold onRejected. rewrite Hno.
  destruct (notified pr); cbn [negb]; world_simpl; repeat split; try done.
Qed.

Lemma missing_interaction_advisory_witness :
  let w := unwrap (run [onPlay 0; PlayRejects 0 NotAllowedError; onStop 0; onPlay 0]
                       (init [a_mp3])) in
  ∃ w', step (PlayRejects 1 NotAllowedError) w = Some w' ∧
    rows w' = rows w ∧ timers w' = timers w ∧ audios w' = audios w ∧
    activeTrack (globalState w') = activeTrack (globalState w) ∧
    toasts w' = [toast advisory] ∧
    interactableNotified (globalState w') = true ∧
    (true = interactableNotified (globalState w) →
     interactableNotified (globalState w') = true).
Proof.
  intros w.
  pose proof (missing_interaction_advisory w 1
                {| owner := 0; element := 1; notified := true; settled := false |}
                NotAllowedError) as H.
  vm_compute in H. vm_compute. apply H; reflexivity.
Defined.

(** X15: an effective [play] on a row whose track id is not empty leaves
    exactly the rows of other track ids dimmed: the row itself, and any
    other row of the same track, are at full opacity. *)
Theorem play_dims_other_tracks (w : World) (r : nat) (row : TrackRow) (c : ascii)
    (url : string) :
  rows w !! r = Some row → audio row = None →
  preview_url (track row) = Some (String c url) →
  track_id (track row) ≠ "" →
  ∃ w', step (onPlay r) w = Some w' ∧
    ∀ i rowi, rows w' !! i = Some rowi →
      opacity (globalState w') rowi
      = if String.eqb (track_id (track row)) (track_id (track rowi))
        then "opacity-100" else "opacity-50".
Proof.
  intros Hrow Ha Hurl Hid. eexists. split.
  { cbn [step]. rewrite Hrow. cbn [mbind option_bind].
    by rewrite (play_session w r row c url Ha Hurl). }
  intros i rowi _. unfold opacity. world_simpl. cbn [activeTrack].
  destruct (track_id (track row)) as [|c0 s] eqn:Hid'; [done|]. cbn [JS.truthy andb].
  by destruct (String.eqb _ _).
Qed.

Lemma play_dims_other_tracks_witness :
  ∃ w', step (onPlay 1) (init [a_mp3; b_mp3; a_mp3]) = Some w' ∧
    ∀ i rowi, rows w' !! i = Some rowi →
      opacity (globalState w') rowi
      = if String.eqb "b" (track_id (track rowi)) then "opacity-100" else "opacity-50".
Proof.
  apply (play_dims_other_tracks (init [a_mp3; b_mp3; a_mp3]) 1 (mount b_mp3)
           "h"%char "ttp://x/b.mp3"); [reflexivity | reflexivity | reflexivity | discriminate].
Defined.

(** X16: an effective [stop] on one row puts every row at full opacity
    and leaves the other rows as they were: a session that another row
    started in the meantime goes on, with nothing on the page dimmed. *)
Theorem stop_undims_every_row (w : World) (r : nat) (row : TrackRow) (a : nat)
    (el : HTMLAudioElement) :
  rows w !! r = Some row → audio row = Some a → audios w !! a = Some el →
  ∃ w', step (onStop r) w = Some w' ∧
    (∀ i rowi, rows w' !! i = Some rowi →
       opacity (globalState w') rowi = "opacity-100") ∧
    (∀ i, i ≠ r → rows w' !! i = rows w !! i).
Proof.
  intros Hrow Ha Hel. eexists. split.
  { cbn [step]. rewrite Hrow. cbn [mbind option_bind].
    apply (stop_session w r row a el Ha Hel). }
  world_simpl. split; [done|].
  intros i Hne. by rewrite list_lookup_insert_ne.
Qed.

Lemma stop_undims_every_row_witness :
  let w := unwrap (run [onPlay 0; onPlay 1] (init [a_mp3; b_mp3])) in
  ∃ w', step (onStop 0) w = Some w' ∧
    (∀ i rowi, rows w' !! i = Some rowi →
       opacity (globalState w') rowi = "opacity-100") ∧
    (∀ i, i ≠ 0 → rows w' !! i = rows w !! i).
Proof.
  intros w.
  refine (stop_undims_every_row w 0
            {| track := a_mp3; audio := Some 0; fadeIn := Some 1; fadeOut := None;
               interactable := false |} 0
            {| src := "http://x/a.mp3"; volume := 0%float; paused := false |} _ _ _);
    vm_compute; reflexivity.
Defined.

(** X17: in every world reached from the initial one, a dimmed row means
    that some row of the page is the active track's and is at full
    opacity: the page is never dimmed as a whole. *)
Theorem never_all_dimmed (tracks : list SpotifyTrack) (es : list Event) (w : World)
    (i : nat) (rowi : TrackRow) :
  run es (init tracks) = Some w →
  rows w !! i = Some rowi → opacity (globalState w) rowi = "opacity-50" →
  ∃ j rowj, rows w !! j = Some rowj ∧
    track_id (track rowj) = activeTrack (globalState w) ∧
    opacity (globalState w) rowj = "opacity-100".
Proof.
  intros Hrun Hi Hdim.
  destruct (run_invariant (page_invariant tracks) (step_page_invariant tracks) es _ _
              (init_page_invariant tracks) Hrun) as (Htracks & Hmarker & _).
  unfold opacity in Hdim. unfold marker_valid in Hmarker.
  destruct (activeTrack (globalState w)) as [|c s] eqn:Hact; [done|].
  destruct Hmarker as [|(t & Ht & Hid)]; [done|].
  rewrite <- Htracks in Ht. apply list_elem_of_fmap in Ht as (rowj & -> & Hj).
  apply list_elem_of_lookup in Hj as [j Hj].
  exists j, rowj. split; [done|]. split; [done|].
  unfold opacity. rewrite Hact, Hid, String.eqb_refl. by rewrite andb_false_r.
Qed.

Lemma never_all_dimmed_witness :
  let w := unwrap (run [onPlay 0; onPlay 1] (init [a_mp3; b_mp3])) in
  ∃ j rowj, rows w !! j = Some rowj ∧
    track_id (track rowj) = activeTrack (globalState w) ∧
    opacity (globalState w) rowj = "opacity-100".
Proof.
  intros w.
  refine (never_all_dimmed [a_mp3; b_mp3] [onPlay 0; onPlay 1] w 0
            {| track := a_mp3; audio := Some 0; fadeIn := Some 1; fadeOut := None;
               interactable := false |} _ _ _); vm_compute; reflexivity.
Defined.

(** X18: from each of the 21 levels the delay of the deferred pause, as
    the host takes it, is 100 ms per decrement needed to reach 0, except
    from the levels 3, 6, 7, 12, 14 and 19 (volumes 0.15, 0.3, 0.35, 0.6,
    0.7 and 0.95), where the division by 0.05 falls short and the delay
    is 1 ms less. *)
Theorem pause_delay_by_level (k : nat) :
  k ≤ 20 →
  JS.timeout_ms ((level k / 0.05) * 100)%float
  = (100 * Z.of_nat k - (if bool_decide (k ∈ ([3; 6; 7; 12; 14; 19]%nat : list nat)) then 1 else 0))%Z.
Proof. intros Hk. by_levels k. Qed.

Lemma pause_delay_by_level_witness :
  JS.timeout_ms ((level 14 / 0.05) * 100)%float = 1399%Z.
Proof. apply (pause_delay_by_level 14). lia. Defined.

(** ** Witnesses of the timer lemmas *)

Lemma interval_never_clears_itself_witness :
  let w := unwrap (run (onPlay 0 :: ticks 20 1 ++ [onStop 0; onPlay 0] ++ ticks 20 4
                        ++ [Elapse 100]) (init [a_mp3])) in
  let t := {| callback := fadeInTick 1 (Some 1); timeout := 100%float;
              repeating := true; due := 4100%Z |} in
  captured (callback t) ≠ Some 4 ∧
  ∃ t', timers (unwrap (fire 4 w)) !! 4 = Some t' ∧ callback t' = callback t.
Proof.
  intros w t.
  refine (interval_never_clears_itself [a_mp3]
            (onPlay 0 :: ticks 20 1 ++ [onStop 0; onPlay 0] ++ ticks 20 4 ++ [Elapse 100])
            w (unwrap (fire 4 w)) 4 t _ _ _ _); vm_compute; reflexivity.
Defined.

Lemma pause_stays_registered_witness :
  let w := unwrap (run (onPlay 0 :: ticks 2 1) (init [a_mp3])) in
  let w1 := unwrap (step (onStop 0) w) in
  let es := ticks 1 2 ++ [onPlay 0; PlayResolves 0; Elapse 500] ++ ticks 1 4 in
  ∃ t, timers (unwrap (run es w1)) !! 3 = Some t ∧ callback t = pauseAudio 0 ∧
       repeating t = false.
Proof.
  intros w w1 es.
  refine (pause_stays_registered [a_mp3] (onPlay 0 :: ticks 2 1) es w w1
            (unwrap (run es w1)) 0
            {| track := a_mp3; audio := Some 0; fadeIn := Some 1; fadeOut := None;
               interactable := false |} 0 _ _ _ _ _ _);
    try (vm_compute; reflexivity).
  intros H. vm_compute in H.
  repeat (apply elem_of_cons in H as [H|H]; [discriminate|]).
  by apply elem_of_nil in H.
Defined.
